(** * Mage Arena image-to-flag converter: quantizer, encoder and decoder

    A shallow embedding of [color_algorithms.py] and of the encode/decode
    functions of [main.py], and the properties of the specification that
    are settled against it.

    Conventions of the embedding.
    - A NumPy [uint8] channel is a [byte]; arithmetic on [uint8] arrays
      wraps modulo 256 and is written out with [mod 256].
    - A Python [float] / NumPy [float64] is an IEEE 754 binary64 number:
      Rocq's primitive [float], whose operations are the correctly rounded
      ones.  Decimal formatting and parsing are defined on the exact binary
      value through [Prim2SF] / [SF2Prim].
    - A Python [int] is a [Z]; loop indices are [nat].
    - A Python [str] is a [string] whose characters are the code points
      0..255; code points above 255 (among them the non-ASCII digits and
      white space Python's [float()] also accepts) cannot be written in
      the model.
    - An image (NumPy array of shape (rows, columns, 3)) is a list of rows
      of colours.
    - OpenCV's [cv.resize] and its RGB->HSV / RGB->LAB conversions are
      library code outside the repository: they are parameters.
    - Files written by [cv.imwrite] and lines printed by [print] are kept
      in an explicit [World] that every effectful function threads. *)

From Stdlib Require Import ZArith List String Ascii Floats Lia Bool DecimalString.
From Stdlib.Strings Require Import Byte.
From stdpp Require Import gmap strings list fin_maps.

Set Warnings "-inexact-float".
Local Open Scope string_scope.
Local Open Scope Z_scope.

(* ===================================================================== *)
(** * Python and NumPy primitives                                         *)
(* ===================================================================== *)

(** ** Colours and images *)

(** Three [uint8] channels; the channel order (BGR or RGB) is the one the
    source gives the value at each place. *)
Definition Color : Type := (byte * byte * byte)%type.

Definition chan0 (c : Color) : byte := c.1.1.
Definition chan1 (c : Color) : byte := c.1.2.
Definition chan2 (c : Color) : byte := c.2.

(** The integer value of a [uint8]. *)
Definition u8 (b : byte) : Z := Z.of_N (Byte.to_N b).

(** A NumPy array of shape (rows, columns, 3), as its list of rows. *)
Abbreviation Image := (list (list Color)).

Definition black : Color := (x00, x00, x00).

(** [img.shape[0]] and [img.shape[1]]. *)
Definition shape (img : Image) : nat * nat :=
  (length img, match img with r :: _ => length r | [] => 0%nat end).

(** [img[j, i]].  The source only reads inside the array (its loops and
    clamps keep the indices in range), where NumPy does not raise; the
    default is never read there. *)
Definition pixel_at (img : Image) (j i : nat) : Color :=
  match img !! j with
  | Some row => default black (row !! i)
  | None => black
  end.

(** [np.zeros((h, w, 3), dtype=np.uint8)]. *)
Definition np_zeros (h w : nat) : Image := replicate h (replicate w black).

(** [img[j, i] = c], inside the array. *)
Definition set_pixel (img : Image) (j i : nat) (c : Color) : Image :=
  alter (fun row => <[i := c]> row) j img.

(** [img[y1:y2, x1:x2] = c]. *)
Definition fill_rect (img : Image) (y1 y2 x1 x2 : nat) (c : Color) : Image :=
  imap (fun y row =>
          if (y1 <=? y)%nat && (y <? y2)%nat
          then imap (fun x p => if (x1 <=? x)%nat && (x <? x2)%nat then c else p) row
          else row) img.

(** The first and third channel exchanged: [cv.COLOR_BGR2RGB] on a pixel,
    and the tuples [(c[2], c[1], c[0])] the source builds. *)
Definition swap_rb (c : Color) : Color := (chan2 c, chan1 c, chan0 c).

(** [cv.cvtColor(img, cv.COLOR_BGR2RGB)]. *)
Definition cvtColor_BGR2RGB (img : Image) : Image := map (map swap_rb) img.

(** [cv.flip(img, 0)]: the rows in reverse order. *)
Definition cv_flip0 (img : Image) : Image := rev img.

(** The OpenCV functions whose code is outside the repository. *)
Class OpenCV : Type := {
  (** [cv.resize(img, (width, height))] *)
  cv_resize : Image -> nat -> nat -> Image;
  (** [cv.cvtColor(np.uint8([[c]]), cv.COLOR_RGB2HSV)[0, 0]] *)
  RGB2HSV : Color -> Color;
  (** [cv.cvtColor(np.uint8([[c]]), cv.COLOR_RGB2LAB)[0, 0]] *)
  RGB2LAB : Color -> Color
}.

(** ** Exceptions and the effect monad *)

Inductive exn : Type :=
| IndexError
| ValueError
| OverflowError.

(** The outside world the program acts on: the files written so far
    (path to image) and the lines printed on standard output. *)
Record World : Type := mkWorld {
  files : gmap string Image;
  stdout : list string
}.

(** A computation that may raise and that acts on the world.  Effects that
    happened before an exception stay in the world. *)
Definition M (A : Type) : Type := World -> (exn + A) * World.

Definition ret {A} (a : A) : M A := fun w => (inr a, w).
Definition raise {A} (e : exn) : M A := fun w => (inl e, w).
Definition bind {A B} (m : M A) (k : A -> M B) : M B :=
  fun w => match m w with
           | (inl e, w') => (inl e, w')
           | (inr a, w') => k a w'
           end.
Definition lift {A} (r : exn + A) : M A := fun w => (r, w).

Notation "'let*' x ':=' m 'in' k" := (bind m (fun x => k))
  (at level 10, x name, m at level 100, k at level 200).

(** The same bind on pure results that may raise. *)
Definition ebind {A B} (r : exn + A) (k : A -> exn + B) : exn + B :=
  match r with
  | inl e => inl e
  | inr a => k a
  end.

Notation "'let!' x ':=' r 'in' k" := (ebind r (fun x => k))
  (at level 10, x name, r at level 100, k at level 200).

(** [cv.imwrite(path, img)] where the write succeeds: OpenCV has an
    encoder for the extension of [path] and the file can be created.
    The call returns [False] without writing when the file cannot be
    created (the program ignores the result) and raises [cv2.error] when
    no encoder matches the extension; the world records neither
    directories nor encoders, so these two outcomes are not modelled. *)
Definition cv_imwrite (path : string) (img : Image) : M unit :=
  fun w => (inr tt, mkWorld (<[path := img]> (files w)) (stdout w)).

(** [print(line)]. *)
Definition print (line : string) : M unit :=
  fun w => (inr tt, mkWorld (files w) (stdout w ++ [line])%list).

(** ** Integers and floats *)

(** [float(n)] for a Python int, [np.float64(n)]: the nearest binary64. *)
Definition Z2F (n : Z) : float := SF2Prim (binary_normalize prec emax n 0 false).

(** Python's builtin [min(a, b)] on floats: the first argument unless the
    second is strictly smaller. *)
Definition py_min (a b : float) : float := if PrimFloat.ltb b a then b else a.

(** [np.clip(a, lo, hi)] on integers: [minimum(maximum(a, lo), hi)]. *)
Definition np_clip_int (a lo hi : Z) : Z := Z.min (Z.max a lo) hi.

(** [np.clip(x, lo, hi)] on floats. *)
Definition np_clip (x lo hi : float) : float :=
  let m := if PrimFloat.ltb x lo then lo else x in
  if PrimFloat.ltb hi m then hi else m.

(** [int(x)]: truncation toward zero; NaN and the infinities raise. *)
Definition py_int (x : float) : exn + Z :=
  match Prim2SF x with
  | S754_nan => inl ValueError
  | S754_infinity _ => inl OverflowError
  | S754_zero _ => inr 0
  | S754_finite s m e =>
      inr (cond_Zopp s (if 0 <=? e then Zpos m * 2 ^ e else Zpos m / 2 ^ (- e)))
  end.

(** ** Formatting a float with [:.2f] *)

(** [num / den] rounded to the nearest integer, ties to even. *)
Definition round_half_even (num den : Z) : Z :=
  let q := num / den in
  let r := num mod den in
  match 2 * r ?= den with
  | Lt => q
  | Gt => q + 1
  | Eq => if Z.even q then q else q + 1
  end.

(** The exact value [m * 2^e], in hundredths, correctly rounded. *)
Definition hundredths (m : positive) (e : Z) : Z :=
  if 0 <=? e then Zpos m * 2 ^ e * 100
  else round_half_even (Zpos m * 100) (2 ^ (- e)).

Definition string_of_Z (n : Z) : string :=
  NilZero.string_of_uint (N.to_uint (Z.to_N n)).

Definition digit_char (d : Z) : ascii :=
  ascii_of_N (48 + Z.to_N d).

Definition sign_string (s : bool) : string := if s then "-" else "".

(** [f"{x:.2f}"]. *)
Definition format_2f (x : float) : string :=
  match Prim2SF x with
  | S754_nan => "nan"
  | S754_infinity s => sign_string s +:+ "inf"
  | S754_zero s => sign_string s +:+ "0.00"
  | S754_finite s m e =>
      let n := hundredths m e in
      sign_string s +:+ string_of_Z (n / 100) +:+ "."
        +:+ String (digit_char (n mod 100 / 10))
              (String (digit_char (n mod 10)) "")
  end.

(** ** Parsing a float with [float(s)] *)

(** The characters [float()] strips from both ends: tab, line feed,
    vertical tab, form feed, carriage return and space, and the two
    white-space code points above 127, U+0085 and U+00A0, which it first
    turns into spaces.  The separators U+001C..U+001F are not stripped. *)
Definition is_space (a : ascii) : bool :=
  let n := N_of_ascii a in
  ((9 <=? n) && (n <=? 13) || (n =? 32) || (n =? 133) || (n =? 160))%N.

Fixpoint lstrip (l : list ascii) : list ascii :=
  match l with
  | a :: l' => if is_space a then lstrip l' else l
  | [] => []
  end.

Definition strip (l : list ascii) : list ascii :=
  rev (lstrip (rev (lstrip l))).

Definition digit_val (a : ascii) : option Z :=
  let n := N_of_ascii a in
  if ((48 <=? n) && (n <=? 57))%N then Some (Z.of_N n - 48) else None.

Definition is_digit (a : ascii) : bool :=
  match digit_val a with Some _ => true | None => false end.

(** An underscore is accepted only between two digits; accepted
    underscores are dropped.  [prev] is the previous character. *)
Fixpoint drop_underscores (prev : option ascii) (l : list ascii)
  : option (list ascii) :=
  match l with
  | [] => match prev with
          | Some "_"%char => None
          | _ => Some []
          end
  | a :: l' =>
      if Ascii.eqb a "_" then
        match prev with
        | Some p => if is_digit p then drop_underscores (Some a) l' else None
        | None => None
        end
      else
        match prev with
        | Some "_"%char =>
            if is_digit a then cons a <$> drop_underscores (Some a) l' else None
        | _ => cons a <$> drop_underscores (Some a) l'
        end
  end.

(** The longest prefix of decimal digits: its value continued from [acc],
    the number of digits read, and the rest. *)
Fixpoint span_digits (l : list ascii) (acc : Z) (n : nat)
  : Z * nat * list ascii :=
  match l with
  | a :: l' =>
      match digit_val a with
      | Some d => span_digits l' (10 * acc + d) (S n)
      | None => (acc, n, l)
      end
  | [] => (acc, n, [])
  end.

Definition lower (a : ascii) : ascii :=
  let n := N_of_ascii a in
  if ((65 <=? n) && (n <=? 90))%N then ascii_of_N (n + 32) else a.

(** The optional exponent: [None] when what follows the mantissa is not a
    well-formed exponent up to the end of the text. *)
Definition parse_exponent (l : list ascii) : option Z :=
  match l with
  | [] => Some 0
  | a :: l' =>
      if Ascii.eqb (lower a) "e" then
        let '(neg, l'') :=
          match l' with
          | "-"%char :: r => (true, r)
          | "+"%char :: r => (false, r)
          | _ => (false, l')
          end in
        match span_digits l'' 0 0 with
        | (_, O, _) => None
        | (v, _, []) => Some (cond_Zopp neg v)
        | _ => None
        end
      else None
  end.

(** The binary64 nearest to [(-1)^neg * d * 10^e]. *)
Definition decimal_to_SF (neg : bool) (d : Z) (e : Z) : spec_float :=
  match d with
  | Zpos p =>
      if 0 <=? e then binary_normalize prec emax (cond_Zopp neg (d * 10 ^ e)) 0 false
      else SFdiv prec emax (S754_finite neg p 0)
             (S754_finite false (Z.to_pos (10 ^ (- e))) 0)
  | _ => S754_zero neg
  end.

(** An unsigned decimal number, [inf], [infinity] or [nan]. *)
Definition parse_unsigned (neg : bool) (l : list ascii) : option spec_float :=
  let word := string_of_list_ascii (map lower l) in
  if String.eqb word "inf" || String.eqb word "infinity" then Some (S754_infinity neg)
  else if String.eqb word "nan" then Some S754_nan
  else
    let '(ip, ni, r1) := span_digits l 0 0 in
    let '(m, nf, r2) :=
      match r1 with
      | "."%char :: r => span_digits r ip 0
      | _ => (ip, O, r1)
      end in
    match ni, nf with
    | O, O => None
    | _, _ =>
        match parse_exponent r2 with
        | Some ex => Some (decimal_to_SF neg m (ex - Z.of_nat nf))
        | None => None
        end
    end.

(** [float(s)]: [None] stands for the [ValueError] Python raises. *)
Definition py_float (s : string) : option float :=
  match drop_underscores None (strip (list_ascii_of_string s)) with
  | None => None
  | Some l =>
      SF2Prim <$>
      match l with
      | "-"%char :: r => parse_unsigned true r
      | "+"%char :: r => parse_unsigned false r
      | _ => parse_unsigned false l
      end
  end.

(** ** Strings *)

(** [s.split(c)] for a one-character separator. *)
Fixpoint py_split (c : ascii) (s : string) : list string :=
  match s with
  | EmptyString => [EmptyString]
  | String a s' =>
      if Ascii.eqb a c then EmptyString :: py_split c s'
      else match py_split c s' with
           | h :: t => String a h :: t
           | [] => [String a EmptyString]
           end
  end.

(** [sep.join(l)]. *)
Definition py_join (sep : string) (l : list string) : string :=
  String.concat sep l.

(* ===================================================================== *)
(** * color_algorithms.py                                                 *)
(* ===================================================================== *)

(** ** What the seven functions share *)

(** [a - b] on [uint8] arrays, one channel: the difference modulo 256. *)
Definition u8_sub (a b : byte) : Z := (u8 a - u8 b) mod 256.

(** [np.array(p) - np.array(t)] for two [uint8] triples. *)
Definition u8x3_sub (p t : Color) : Z * Z * Z :=
  (u8_sub (chan0 p) (chan0 t), u8_sub (chan1 p) (chan1 t), u8_sub (chan2 p) (chan2 t)).

(** The sum of squares [cv.norm] takes the root of. *)
Definition sum_squares (d : Z * Z * Z) : Z :=
  let '(x, y, z) := d in x * x + y * y + z * z.

(** [cv.norm(a)] on a [uint8] triple: the L2 norm, the square root in
    binary64 of the integer sum of squares. *)
Definition cv_norm (d : Z * Z * Z) : float := PrimFloat.sqrt (Z2F (sum_squares d)).

(** [float(b)] for a [uint8]. *)
Definition fl (b : byte) : float := Z2F (u8 b).

(** [abs(float(a) - float(b))]. *)
Definition abs_diff (a b : byte) : float := PrimFloat.abs (fl a - fl b)%float.

(** [min(abs(float(a) - float(b)), 180 - abs(float(a) - float(b))) / 180.0]:
    the hue distance with wrap-around. *)
Definition hue_dist (a b : byte) : float :=
  (py_min (abs_diff a b) (180 - abs_diff a b) / 180)%float.

(** The state of a scan: [min_dist] and [(best_u, best_v)]. *)
Definition scan_state : Type := (float * (Z * Z))%type.

(** [min_dist = float('inf'); best_u, best_v = 0, 0]. *)
Definition scan_init : scan_state := (infinity, (0, 0)).

(** The body of the inner loop at cell [(u, v)]: the distance of the cell's
    colour is computed, and the best is replaced when it is strictly
    smaller. *)
Definition scan_cell (dist : Color -> float) (texture_resized : Image)
  (v u : nat) (st : scan_state) : scan_state :=
  let texture_colour := pixel_at texture_resized v u in
  let d := dist texture_colour in
  if PrimFloat.ltb d (fst st) then (d, (Z.of_nat u, Z.of_nat v)) else st.

(** [for v in range(6): for u in range(7): ...; return best_u, best_v]. *)
Definition scan_palette (dist : Color -> float) (texture_resized : Image) : Z * Z :=
  snd (fold_left
         (fun st v =>
            fold_left (fun st u => scan_cell dist texture_resized v u st) (seq 0 7) st)
         (seq 0 6) scan_init).

Section ColorAlgorithms.
Context {cv : OpenCV}.

(** ** The distance each function computes for one palette cell *)

(** [cv.norm(np.array(pixel_rgb) - np.array(texture_colour))] *)
Definition rgb_dist (pixel_rgb texture_colour : Color) : float :=
  cv_norm (u8x3_sub pixel_rgb texture_colour).

Definition perceptual_dist (pixel_rgb texture_colour : Color) : float :=
  let rgb_dist := rgb_dist pixel_rgb texture_colour in
  let pixel_lab := RGB2LAB pixel_rgb in
  let texture_lab := RGB2LAB texture_colour in
  let lab_dist := cv_norm (u8x3_sub pixel_lab texture_lab) in
  ((0.6 * lab_dist) + (0.4 * rgb_dist))%float.

Definition hsv_dist (pixel_rgb texture_colour : Color) : float :=
  let pixel_hsv := RGB2HSV pixel_rgb in
  let texture_hsv := RGB2HSV texture_colour in
  let h_dist := hue_dist (chan0 pixel_hsv) (chan0 texture_hsv) in
  let s_dist := (abs_diff (chan1 pixel_hsv) (chan1 texture_hsv) / 255)%float in
  let v_dist := (abs_diff (chan2 pixel_hsv) (chan2 texture_hsv) / 255)%float in
  ((0.5 * h_dist) + (0.25 * s_dist) + (0.25 * v_dist))%float.

Definition lab_dist (pixel_rgb texture_colour : Color) : float :=
  let pixel_lab := RGB2LAB pixel_rgb in
  let texture_lab := RGB2LAB texture_colour in
  let l_diff := (abs_diff (chan0 pixel_lab) (chan0 texture_lab) / 100)%float in
  let a_diff := (abs_diff (chan1 pixel_lab) (chan1 texture_lab) / 255)%float in
  let b_diff := (abs_diff (chan2 pixel_lab) (chan2 texture_lab) / 255)%float in
  ((0.5 * l_diff) + (0.25 * a_diff) + (0.25 * b_diff))%float.

Definition weighted_dist (pixel_rgb texture_colour : Color) : float :=
  let pixel_hsv := RGB2HSV pixel_rgb in
  let texture_hsv := RGB2HSV texture_colour in
  let rgb_dist := rgb_dist pixel_rgb texture_colour in
  let sat_diff := (abs_diff (chan1 pixel_hsv) (chan1 texture_hsv) / 255)%float in
  (rgb_dist + (sat_diff * 100))%float.

Definition simple_dist (pixel_rgb texture_colour : Color) : float :=
  let pixel_hsv := RGB2HSV pixel_rgb in
  let pixel_saturation := chan1 pixel_hsv in
  let texture_hsv := RGB2HSV texture_colour in
  let texture_saturation := chan1 texture_hsv in
  let rgb_dist := rgb_dist pixel_rgb texture_colour in
  if (30 <? u8 pixel_saturation) && (u8 texture_saturation <? 30)
  then (rgb_dist * 2)%float
  else rgb_dist.

Definition perceptual_hsv_dist (pixel_rgb texture_colour : Color) : float :=
  let pixel_hsv := RGB2HSV pixel_rgb in
  let texture_hsv := RGB2HSV texture_colour in
  let hue_diff := hue_dist (chan0 pixel_hsv) (chan0 texture_hsv) in
  let sat_diff := (abs_diff (chan1 pixel_hsv) (chan1 texture_hsv) / 255)%float in
  let val_diff := (abs_diff (chan2 pixel_hsv) (chan2 texture_hsv) / 255)%float in
  ((0.6 * hue_diff * 255) + (0.25 * sat_diff * 255) + (0.15 * val_diff * 255))%float.

(** ** The seven functions

    Each takes the pixel in BGR order, as the source image holds it,
    turns it to RGB and scans the palette with its distance. *)

Definition find_closest_colour_perceptual (pixel_colour : Color) (texture_resized : Image) : Z * Z :=
  let pixel_rgb := (chan2 pixel_colour, chan1 pixel_colour, chan0 pixel_colour) in
  scan_palette (perceptual_dist pixel_rgb) texture_resized.

Definition find_closest_colour_rgb (pixel_colour : Color) (texture_resized : Image) : Z * Z :=
  let pixel_rgb := (chan2 pixel_colour, chan1 pixel_colour, chan0 pixel_colour) in
  scan_palette (rgb_dist pixel_rgb) texture_resized.

Definition find_closest_colour_hsv (pixel_colour : Color) (texture_resized : Image) : Z * Z :=
  let pixel_rgb := (chan2 pixel_colour, chan1 pixel_colour, chan0 pixel_colour) in
  scan_palette (hsv_dist pixel_rgb) texture_resized.

Definition find_closest_colour_lab (pixel_colour : Color) (texture_resized : Image) : Z * Z :=
  let pixel_rgb := (chan2 pixel_colour, chan1 pixel_colour, chan0 pixel_colour) in
  scan_palette (lab_dist pixel_rgb) texture_resized.

Definition find_closest_colour_weighted (pixel_colour : Color) (texture_resized : Image) : Z * Z :=
  let pixel_rgb := (chan2 pixel_colour, chan1 pixel_colour, chan0 pixel_colour) in
  scan_palette (weighted_dist pixel_rgb) texture_resized.

Definition find_closest_colour_simple (pixel_colour : Color) (texture_resized : Image) : Z * Z :=
  let pixel_rgb := (chan2 pixel_colour, chan1 pixel_colour, chan0 pixel_colour) in
  scan_palette (simple_dist pixel_rgb) texture_resized.

Definition find_closest_colour_perceptual_hsv (pixel_colour : Color) (texture_resized : Image) : Z * Z :=
  let pixel_rgb := (chan2 pixel_colour, chan1 pixel_colour, chan0 pixel_colour) in
  scan_palette (perceptual_hsv_dist pixel_rgb) texture_resized.

(** The dictionary [ALGORITHMS], in its insertion order. *)
Definition ALGORITHMS : list (string * (Color -> Image -> Z * Z)) :=
  [ ("perceptual", find_closest_colour_perceptual);
    ("rgb", find_closest_colour_rgb);
    ("hsv", find_closest_colour_hsv);
    ("lab", find_closest_colour_lab);
    ("weighted", find_closest_colour_weighted);
    ("simple", find_closest_colour_simple);
    ("perceptual_hsv", find_closest_colour_perceptual_hsv) ].

Definition get_available_algorithms : list string := map fst ALGORITHMS.

(** [ALGORITHMS.get(algorithm_name)] *)
Definition get_algorithm_function (algorithm_name : string)
  : option (Color -> Image -> Z * Z) :=
  snd <$> find (fun kv => String.eqb (fst kv) algorithm_name) ALGORITHMS.

End ColorAlgorithms.

(* ===================================================================== *)
(** * main.py                                                             *)
(* ===================================================================== *)

(** The token of one pixel, from the cell index the algorithm returned:
    lines 62 to 67 of the encoder. *)
Definition uv_token (best : Z * Z) : string :=
  let '(best_u, best_v) := best in
  let best_u := np_clip_int best_u 0 6 in
  let best_v := np_clip_int best_v 0 5 in
  let best_u := np_clip (Z2F best_u / 6)%float 0.01%float 0.99%float in
  let best_v := np_clip (1 - (Z2F best_v / 5))%float 0.01%float 0.99%float in
  format_2f best_u +:+ ":" +:+ format_2f best_v.

(** The palette cell one stream entry names: lines 91 to 100 of the
    decoder.  [uv_pair.split(':')] always has a first field; a missing
    second field raises [IndexError]. *)
Definition entry_cell (uv_pair : string) : exn + (Z * Z) :=
  let array2 := py_split ":" uv_pair in
  let! x := match array2 !! 0%nat with
            | Some f => from_option inr (inl ValueError) (py_float f)
            | None => inl IndexError
            end in
  let! y := match array2 !! 1%nat with
            | Some f => from_option inr (inl ValueError) (py_float f)
            | None => inl IndexError
            end in
  let! texture_u := py_int (x * 7)%float in
  let! texture_v := py_int ((1 - y) * 6)%float in
  let texture_u := Z.max 0 (Z.min 6 texture_u) in
  let texture_v := Z.max 0 (Z.min 5 texture_v) in
  inr (texture_u, texture_v).

(** The state of the decoder's loops: [num] and [preview_img]. *)
Definition decode_state : Type := (nat * Image)%type.

(** The decoder's inner loop over [j] for one column [i]; [break] leaves
    it as soon as the stream is used up. *)
Fixpoint decode_column (uv_pairs : list string) (texture_resized : Image)
  (i : nat) (js : list nat) (st : decode_state) : exn + decode_state :=
  match js with
  | [] => inr st
  | j :: js' =>
      let '(num, preview_img) := st in
      if (length uv_pairs <=? num)%nat then inr st
      else
        let uv_pair := default "" (uv_pairs !! num) in
        let! cell := entry_cell uv_pair in
        let '(texture_u, texture_v) := cell in
        let colour_rgb := pixel_at texture_resized (Z.to_nat texture_v) (Z.to_nat texture_u) in
        let colour_bgr := (chan2 colour_rgb, chan1 colour_rgb, chan0 colour_rgb) in
        let preview_img := set_pixel preview_img j i colour_bgr in
        decode_column uv_pairs texture_resized i js' (S num, preview_img)
  end.

(** The decoder's outer loop over [i]. *)
Fixpoint decode_columns (uv_pairs : list string) (texture_resized : Image)
  (height : nat) (columns : list nat) (st : decode_state) : exn + decode_state :=
  match columns with
  | [] => inr st
  | i :: columns' =>
      let! st' := decode_column uv_pairs texture_resized i (seq 0 height) st in
      decode_columns uv_pairs texture_resized height columns' st'
  end.

(** Lines 17 to 34 of [save_resized_texture]: the 300 x 350 image in which
    every palette cell is a square of 50 x 50 pixels. *)
Definition enlarge_palette (texture_resized : Image) : Image :=
  let square_size := 50%nat in
  let img_width := (7 * square_size)%nat in
  let img_height := (6 * square_size)%nat in
  let enlarged_img := np_zeros img_height img_width in
  fold_left
    (fun img v =>
       fold_left
         (fun img u =>
            let colour_rgb := pixel_at texture_resized v u in
            let colour_bgr := (chan2 colour_rgb, chan1 colour_rgb, chan0 colour_rgb) in
            let x1 := (u * square_size)%nat in
            let y1 := (v * square_size)%nat in
            let x2 := ((u + 1) * square_size)%nat in
            let y2 := ((v + 1) * square_size)%nat in
            fill_rect img y1 y2 x1 x2 colour_bgr)
         (seq 0 7) img)
    (seq 0 6) enlarged_img.

Section Main.
Context {cv : OpenCV}.

(** [save_resized_texture(texture, output_path)] *)
Definition save_resized_texture (texture : Image) (output_path : string) : M Image :=
  let texture_rgb := cvtColor_BGR2RGB texture in
  let texture_resized := cv_resize texture_rgb 7 6 in
  let enlarged_img := enlarge_palette texture_resized in
  let* _ := cv_imwrite output_path enlarged_img in
  ret enlarged_img.

(** The two nested loops of the encoder: [serialized_list] after them. *)
Definition serialize_pixels (source_image texture_resized : Image)
  (algorithm_func : Color -> Image -> Z * Z) (width height : nat) : list string :=
  fold_left
    (fun serialized_list i =>
       fold_left
         (fun serialized_list j =>
            let pixel_colour := pixel_at source_image j i in
            let best := algorithm_func pixel_colour texture_resized in
            (serialized_list ++ [uv_token best])%list)
         (rev (seq 0 height)) serialized_list)
    (seq 0 width) [].

(** [serialize_image_to_uv(source_image, texture, algorithm_func)] *)
Definition serialize_image_to_uv (source_image texture : Image)
  (algorithm_func : Color -> Image -> Z * Z) : M string :=
  let source_image :=
    if negb (snd (shape source_image) =? 100)%nat || negb (fst (shape source_image) =? 66)%nat
    then cv_resize source_image 100 66
    else source_image in
  let texture_rgb := cvtColor_BGR2RGB texture in
  let texture_resized := cv_resize texture_rgb 7 6 in
  let* _ := save_resized_texture texture "resized_texture.png" in
  let width := snd (shape source_image) in
  let height := fst (shape source_image) in
  let serialized_list :=
    serialize_pixels source_image texture_resized algorithm_func width height in
  ret (py_join "," serialized_list).

(** [create_uv_preview_image(serialized_data, texture, output_path)] *)
Definition create_uv_preview_image (serialized_data : string) (texture : Image)
  (output_path : string) : M Image :=
  let uv_pairs := py_split "," serialized_data in
  let width := 100%nat in
  let height := 66%nat in
  let texture_rgb := cvtColor_BGR2RGB texture in
  let texture_resized := cv_resize texture_rgb 7 6 in
  let preview_img := np_zeros height width in
  let* st := lift (decode_columns uv_pairs texture_resized height (seq 0 width)
                     (0%nat, preview_img)) in
  let preview_img := cv_flip0 (snd st) in
  let* _ := cv_imwrite output_path preview_img in
  let* _ := print ("Preview saved: " +:+ output_path) in
  ret preview_img.

End Main.


(* ===================================================================== *)
(** * Definitions used by the proofs                                      *)
(* ===================================================================== *)

(** ** Classes of binary64 values *)

(** Strictly positive: a positive finite number or [+inf]. *)
Definition sf_pos (x : spec_float) : bool :=
  match x with
  | S754_finite false _ _ | S754_infinity false => true
  | _ => false
  end.

(** Zero (of either sign) or strictly positive. *)
Definition sf_nonneg (x : spec_float) : bool :=
  match x with
  | S754_zero _ | S754_finite false _ _ | S754_infinity false => true
  | _ => false
  end.

Definition sf_finite (x : spec_float) : bool :=
  match x with
  | S754_zero _ | S754_finite _ _ _ => true
  | _ => false
  end.

Definition sf_nonnan (x : spec_float) : bool :=
  match x with
  | S754_nan => false
  | _ => true
  end.

Definition fpos (x : float) : bool := sf_pos (Prim2SF x).
Definition fnonneg (x : float) : bool := sf_nonneg (Prim2SF x).
Definition ffinite (x : float) : bool := sf_finite (Prim2SF x).
Definition fnonnan (x : float) : bool := sf_nonnan (Prim2SF x).

(** ** Exhaustive checks over the finitely many values a term takes *)

(** The float of a small non-negative integer, by the primitive
    conversion; it agrees with [Z2F] below [2^62]. *)
Definition F63 (z : Z) : float := PrimFloat.of_uint63 (Uint63.of_Z z).

(** [P] on every integer of [lo, lo + 2^k). *)
Fixpoint all_range (k : nat) (lo : Z) (P : Z -> bool) : bool :=
  match k with
  | O => P lo
  | S k' => all_range k' lo P && all_range k' (lo + 2 ^ Z.of_nat k') P
  end.

(** What is checked of a term [t] that vanishes exactly when [z] holds:
    it is finite, not negative, the float [0] when [z] and strictly
    positive otherwise. *)
Definition term_ok (z : bool) (t : float) : bool :=
  PrimFloat.leb 0 t && PrimFloat.ltb (PrimFloat.abs t) infinity
  && (if z then PrimFloat.Leibniz.eqb t 0 else PrimFloat.ltb 0 t).

(** The norm of a sum of squares [r], and the terms built on it. *)
Definition radicand_ok (r : Z) : bool :=
  let d := PrimFloat.sqrt (F63 r) in
  term_ok (r =? 0) d && term_ok (r =? 0) (d * 2)%float
  && term_ok (r =? 0) (0.6 * d)%float && term_ok (r =? 0) (0.4 * d)%float.

(** [abs(float(x) - float(y))] on integer values. *)
Definition abs_diff63 (x y : Z) : float := PrimFloat.abs (F63 x - F63 y)%float.

(** The hue distance on integer values. *)
Definition hue_dist63 (x y : Z) : float :=
  (py_min (abs_diff63 x y) (180 - abs_diff63 x y) / 180)%float.

(** The terms built on the difference of two channel values. *)
Definition channel_ok (x y : Z) : bool :=
  let z := x =? y in
  let t := (abs_diff63 x y / 255)%float in
  term_ok z (0.25 * t)%float
  && term_ok z (0.5 * (abs_diff63 x y / 100))%float
  && term_ok z (t * 100)%float
  && term_ok z (0.25 * t * 255)%float
  && term_ok z (0.15 * t * 255)%float.

(** The terms built on the hue distance of two hues: always finite, and
    for hues up to 180 zero exactly for equal or opposite hues. *)
Definition hue_ok (x y : Z) : bool :=
  let h := hue_dist63 x y in
  PrimFloat.ltb (PrimFloat.abs (0.5 * h)%float) infinity
  && PrimFloat.ltb (PrimFloat.abs (0.6 * h * 255)%float) infinity
  && (if (x <=? 180) && (y <=? 180)
      then let z := (x =? y) || (Z.abs (x - y) =? 180) in
           term_ok z (0.5 * h)%float && term_ok z (0.6 * h * 255)%float
      else true).

(** Hues 0 and 180 are at the same distance from every hue up to 180. *)
Definition hue_opposite_ok (x : Z) : bool :=
  if x <=? 180
  then PrimFloat.Leibniz.eqb (hue_dist63 x 0) (hue_dist63 x 180)
       && PrimFloat.Leibniz.eqb (hue_dist63 x 180) (hue_dist63 x 0)
  else true.

(** ** The order in which a scan visits the palette *)

(** The cells [(v, u)], [v] outer and [u] inner. *)
Definition scan_order : list (nat * nat) :=
  flat_map (fun v => map (fun u => (v, u)) (seq 0 7)) (seq 0 6).

(** One step of a scan on a cell of [scan_order]. *)
Definition scan_step (dist : Color -> float) (texture_resized : Image)
  (st : scan_state) (c : nat * nat) : scan_state :=
  scan_cell dist texture_resized (fst c) (snd c) st.


(** ** What makes a distance safe to re-quantize with *)

(** A distance is never negative, is zero from a colour to itself, and a
    colour at distance zero from [q] is as far as [q] from every pixel. *)
Definition good_metric (D : Color -> Color -> float) : Prop :=
  (forall p t, fnonneg (D p t) = true)
  /\ (forall q, D q q = 0%float)
  /\ (forall q t, fpos (D q t) = false -> forall p, D p t = D p q).

(** OpenCV documents the hue of an 8-bit HSV image as lying in 0..180. *)
Definition hue_in_range (cv : OpenCV) : Prop :=
  forall c, u8 (chan0 (RGB2HSV c)) <= 180.

(** The index pair [(best_u, best_v)] a scan stores for the cell [(v, u)]. *)
Definition cell_index (c : nat * nat) : Z * Z := (Z.of_nat (snd c), Z.of_nat (fst c)).

(** The distance a scan computes at a cell. *)
Definition cell_dist (dist : Color -> float) (texture_resized : Image) (c : nat * nat) : float :=
  dist (pixel_at texture_resized (fst c) (snd c)).


(** ** The encoder and the decoder in closed form *)

(** Whether the character [c] occurs in [s]. *)
Fixpoint has_char (c : ascii) (s : string) : bool :=
  match s with
  | EmptyString => false
  | String a s' => Ascii.eqb a c || has_char c s'
  end.

(** The texts the encoder writes for the clamped column index 0..6 and
    for the clamped row index 0..5. *)
Definition u_strings : list string :=
  ["0.01"; "0.17"; "0.33"; "0.50"; "0.67"; "0.83"; "0.99"].
Definition v_strings : list string :=
  ["0.99"; "0.80"; "0.60"; "0.40"; "0.20"; "0.01"].

(** The cell after the two integer clamps of the encoder. *)
Definition clamp_cell (best : Z * Z) : Z * Z :=
  (np_clip_int (fst best) 0 6, np_clip_int (snd best) 0 5).

(** The tokens of a grid, in the order the encoder visits its pixels. *)
Definition grid_tokens (source_image texture_resized : Image)
  (algorithm_func : Color -> Image -> Z * Z) (width height : nat) : list string :=
  flat_map
    (fun i => map (fun j => uv_token (algorithm_func (pixel_at source_image j i) texture_resized))
                  (rev (seq 0 height)))
    (seq 0 width).

(** The cells the algorithm returns, in the same order. *)
Definition grid_cells (source_image texture_resized : Image)
  (algorithm_func : Color -> Image -> Z * Z) (width height : nat) : list (Z * Z) :=
  flat_map
    (fun i => map (fun j => algorithm_func (pixel_at source_image j i) texture_resized)
                  (rev (seq 0 height)))
    (seq 0 width).

(** A function that may raise, applied along a list: the results, or the
    first exception. *)
Fixpoint mapM_exn {A B} (f : A -> exn + B) (l : list A) : exn + list B :=
  match l with
  | [] => inr []
  | a :: l' =>
      let! b := f a in
      let! bs := mapM_exn f l' in
      inr (b :: bs)
  end.

(** The positions [(j, i)] the decoder fills, in order. *)
Definition positions (width height : nat) : list (nat * nat) :=
  flat_map (fun i => map (fun j => (j, i)) (seq 0 height)) (seq 0 width).

(** The decoder's assignment for one position and one cell. *)
Definition paint (texture_resized : Image) (preview_img : Image)
  (pc : (nat * nat) * (Z * Z)) : Image :=
  let '((j, i), (texture_u, texture_v)) := pc in
  let colour_rgb := pixel_at texture_resized (Z.to_nat texture_v) (Z.to_nat texture_u) in
  set_pixel preview_img j i (chan2 colour_rgb, chan1 colour_rgb, chan0 colour_rgb).

(** The decoder's two loops as one loop over the positions. *)
Fixpoint decode_flat (uv_pairs : list string) (texture_resized : Image)
  (ps : list (nat * nat)) (st : decode_state) : exn + decode_state :=
  match ps with
  | [] => inr st
  | (j, i) :: ps' =>
      let '(num, preview_img) := st in
      if (length uv_pairs <=? num)%nat then decode_flat uv_pairs texture_resized ps' st
      else
        let! cell := entry_cell (default "" (uv_pairs !! num)) in
        decode_flat uv_pairs texture_resized ps' (S num, paint texture_resized preview_img ((j, i), cell))
  end.

(** The image before the final flip, from the cells of the stream. *)
Definition painted (texture_resized : Image) (cells : list (Z * Z)) : Image :=
  fold_left (paint texture_resized) (zip (positions 100 66) cells) (np_zeros 66 100).

(** An array of [h] rows of [w] pixels. *)
Definition has_shape (h w : nat) (img : Image) : Prop :=
  length img = h /\ Forall (fun row => length row = w) img.

(** ** Well-formed streams *)

(** A number with one digit before the point and two after it. *)
Definition is_two_decimal (s : string) : bool :=
  match s with
  | String a (String "." (String b (String c EmptyString))) =>
      is_digit a && is_digit b && is_digit c
  | _ => false
  end.

(** An entry ["d.dd:d.dd"]. *)
Definition well_formed_entry (e : string) : bool :=
  match py_split ":" e with
  | [x; y] => is_two_decimal x && is_two_decimal y
  | _ => false
  end.


(** ** The Euclidean distance in the words of the specification *)

(** [sqrt(dr^2 + dg^2 + db^2)] over the signed channel differences. *)
Definition euclidean_rgb (p t : Color) : float :=
  let dr := u8 (chan0 p) - u8 (chan0 t) in
  let dg := u8 (chan1 p) - u8 (chan1 t) in
  let db := u8 (chan2 p) - u8 (chan2 t) in
  PrimFloat.sqrt (Z2F (dr * dr + dg * dg + db * db)).

(** The palette both the encoder and the decoder derive from a texture:
    [cv.resize(cv.cvtColor(texture, cv.COLOR_BGR2RGB), (7, 6))]. *)
Definition palette_of {cv : OpenCV} (texture : Image) : Image :=
  cv_resize (cvtColor_BGR2RGB texture) 7 6.

(** The token in the words of the encoder's contract, from the clamped
    cell index. *)
Definition token_formula (best : Z * Z) : string :=
  let u := np_clip_int (fst best) 0 6 in
  let v := np_clip_int (snd best) 0 5 in
  format_2f (np_clip (Z2F u / 6)%float 0.01%float 0.99%float) +:+ ":"
    +:+ format_2f (np_clip (1 - Z2F v / 5)%float 0.01%float 0.99%float).


(** The text with one digit before the point and two after it that
    stands for [n] hundredths, for [n] below 1000. *)
Definition two_decimal_string (n : Z) : string :=
  String (digit_char (n / 100))
    (String "." (String (digit_char (n / 10 mod 10)) (String (digit_char (n mod 10)) ""))).

(** Such a text is read as a finite float from which both cell indices
    are computed without an exception. *)
Definition two_decimal_ok (n : Z) : bool :=
  if n <? 1000 then
    match py_float (two_decimal_string n) with
    | Some x =>
        match py_int (x * 7)%float, py_int ((1 - x) * 6)%float with
        | inr _, inr _ => true
        | _, _ => false
        end
    | None => false
    end
  else true.

(** ** Concrete inputs *)

Definition byte_of_Z (z : Z) : byte := default x00 (Byte.of_N (Z.to_N (z mod 256))).

(** Nearest-neighbour sampling, one possible [cv.resize]. *)
Definition resize_nearest (img : Image) (w h : nat) : Image :=
  let '(rows, cols) := shape img in
  map (fun j => map (fun i => pixel_at img (j * rows / h) (i * cols / w)) (seq 0 w)) (seq 0 h).

(** A conversion whose first channel stays within 0..180, as an HSV hue
    does; it is not OpenCV's conversion. *)
Definition example_hsv (c : Color) : Color :=
  (byte_of_Z (u8 (chan0 c) * 180 / 255), chan1 c, chan2 c).

Definition example_cv : OpenCV :=
  {| cv_resize := resize_nearest; RGB2HSV := example_hsv; RGB2LAB := fun c => c |}.

(** A 6 x 7 palette whose cell (0,0) is pure red and whose other cells
    are black, in RGB order. *)
Definition red_palette : Image :=
  ((xff, x00, x00) :: replicate 6 black) :: replicate 5 (replicate 7 black).

(** A 6 x 7 texture with 42 different colours. *)
Definition example_texture : Image :=
  map (fun v => map (fun u => (byte_of_Z (40 * Z.of_nat u), byte_of_Z (50 * Z.of_nat v),
                               byte_of_Z (20 * Z.of_nat (u + v))))
                    (seq 0 7)) (seq 0 6).

(** A 66 x 100 grid. *)
Definition example_grid : Image :=
  map (fun j => map (fun i => (byte_of_Z (2 * Z.of_nat i), byte_of_Z (3 * Z.of_nat j),
                               byte_of_Z (Z.of_nat (i + j))))
                    (seq 0 100)) (seq 0 66).

Definition empty_world : World := mkWorld ∅ [].



(** 6601 well-formed entries. *)
Definition long_stream : string :=
  py_join "," (replicate 6601 "0.50:0.50").


(* ===================================================================== *)
(** * The rest of main.py                                                 *)
(* ===================================================================== *)

(** The functions of [os.path] the program calls; they depend on the
    platform. *)
Class OsPath : Type := {
  (** [os.path.isabs(path)] *)
  os_path_isabs : string -> bool;
  (** [os.path.join(a, b)] *)
  os_path_join : string -> string -> string
}.

(** [cv.imread(path, cv.IMREAD_COLOR_BGR)]: the image stored under the
    path, [None] when there is none. *)
Definition cv_imread (path : string) : M (option Image) :=
  fun w => (inr (files w !! path), w).

(** One hexadecimal digit, in upper case. *)
Definition hex_digit (n : N) : ascii :=
  if (n <? 10)%N then ascii_of_N (48 + n) else ascii_of_N (55 + n).

(** [hex(n)[2:].upper()] for the code of a character. *)
Definition hex_upper (n : N) : string :=
  if (n <? 16)%N then String (hex_digit n) ""
  else String (hex_digit (n / 16)) (String (hex_digit (n mod 16)) "").

(** [f"0x{hex(ord(c))[2:].upper()}"] *)
Definition hex_item (c : ascii) : string := "0x" +:+ hex_upper (N_of_ascii c).

(** [','.join([f"0x{hex(ord(c))[2:].upper()}" for c in serialized_data])] *)
Definition hex_serialize (serialized_data : string) : string :=
  py_join "," (map hex_item (list_ascii_of_string serialized_data)).

(** The value of a hexadecimal digit, 0 for another character. *)
Definition hex_digit_value (a : ascii) : N :=
  let n := N_of_ascii a in
  if (48 <=? n)%N && (n <=? 57)%N then n - 48
  else if (65 <=? n)%N && (n <=? 70)%N then n - 55
  else 0.

(** The number an item [0x...] denotes, as [int(item, 16)] reads it. *)
Definition hex_value (item : string) : N :=
  match item with
  | String _ (String _ digits) =>
      fold_left (fun acc a => 16 * acc + hex_digit_value a) (list_ascii_of_string digits) 0
  | _ => 0
  end%N.

(** The characters a stream the encoder wrote is made of. *)
Definition stream_char (a : ascii) : bool :=
  is_digit a || Ascii.eqb a "." || Ascii.eqb a ":" || Ascii.eqb a ",".

Section MainRest.
Context {cv : OpenCV} {os : OsPath}.

(** [normalize_image_path(image_path)] *)
Definition normalize_image_path (image_path : string) : string :=
if os_path_isabs image_path then image_path
else if String.prefix "./" image_path || String.prefix ".\" image_path
        || has_char "/" image_path || has_char "\" image_path
     then image_path
     else os_path_join "images" image_path.

(** [process_image_with_algorithm(source_image_path, texture_path,
  algorithm_name, output_prefix)].  Each [raise ValueError(...)] is the
  exception [ValueError]; [os.makedirs('previews', exist_ok=True)] only
  creates a directory, which the world does not record. *)
Definition process_image_with_algorithm
(source_image_path texture_path algorithm_name output_prefix : string) : M string :=
let* source_image := cv_imread source_image_path in
let* texture := cv_imread texture_path in
match source_image with
| None => raise ValueError
| Some source_image =>
    match texture with
    | None => raise ValueError
    | Some texture =>
        match get_algorithm_function algorithm_name with
        | None => raise ValueError
        | Some algorithm_func =>
            let* _ := print ("Using algorithm: " +:+ algorithm_name) in
            let* serialized_data :=
              serialize_image_to_uv source_image texture algorithm_func in
            let output_path :=
              if String.eqb algorithm_name "rgb"
              then os_path_join "previews" (output_prefix +:+ ".png")
              else os_path_join "previews"
                     (output_prefix +:+ "_" +:+ algorithm_name +:+ ".png") in
            let* _ := create_uv_preview_image serialized_data texture output_path in
            let hex_serialized_data := hex_serialize serialized_data in
            ret hex_serialized_data
        end
    end
end.

End MainRest.

(** [cv.resize(img, (100, 66))] returns 66 rows of 100 pixels. *)
Definition resizes_to_grid (cv : OpenCV) : Prop :=
  forall img, shape (cv_resize img 100 66) = (66%nat, 100%nat).

(** Every path [os.path.join("images", p)] returns holds a separator. *)
Definition join_has_separator (os : OsPath) : Prop :=
  forall p, has_char "/" (os_path_join "images" p) || has_char "\" (os_path_join "images" p) = true.

(** The POSIX functions, as one instance. *)
Definition posix_path : OsPath :=
  {| os_path_isabs := fun p => String.prefix "/" p;
     os_path_join := fun a b => if String.prefix "/" b then b else a +:+ "/" +:+ b |}.

(** A world that holds a source image and a texture. *)
Definition example_world : World :=
  mkWorld (<["images/flag.png" := example_grid]>
             (<["mage-arena-texture.png" := example_texture]> ∅)) [].


(* ===================================================================== *)
(** * Properties of binary64 arithmetic                                   *)
(* ===================================================================== *)

(** ** The strict order *)

Ltac sf_destruct :=
  repeat match goal with
         | x : spec_float |- _ => destruct x as [[]|[]| |[] ? ?]
         end.

Ltac cmp_cases :=
  repeat match goal with
         | H : context [Z.compare ?a ?b] |- _ => destruct (Z.compare_spec a b)
         | |- context [Z.compare ?a ?b] => destruct (Z.compare_spec a b)
         | H : context [Pos.compare_cont Eq ?a ?b] |- _ =>
             change (Pos.compare_cont Eq a b) with (Pos.compare a b) in *;
             destruct (Pos.compare_spec a b)
         | |- context [Pos.compare_cont Eq ?a ?b] =>
             change (Pos.compare_cont Eq a b) with (Pos.compare a b) in *;
             destruct (Pos.compare_spec a b)
         end.

Lemma SFltb_trans x y z : SFltb x y = true -> SFltb y z = true -> SFltb x z = true.
Proof.
  unfold SFltb, SFcompare; sf_destruct; simpl; try discriminate; try reflexivity;
    intros; cmp_cases; simpl in *; try discriminate; try reflexivity; try lia.
Qed.

Lemma SFltb_cotrans x y z :
  sf_nonnan y = true -> SFltb x z = true -> SFltb x y = true \/ SFltb y z = true.
Proof.
  unfold SFltb, SFcompare; sf_destruct; simpl; try discriminate; auto;
    intros; cmp_cases; simpl in *; try discriminate; auto; try lia.
Qed.

Lemma SFltb_irrefl x : SFltb x x = false.
Proof.
  unfold SFltb, SFcompare; sf_destruct; simpl; try reflexivity;
    change (Pos.compare_cont Eq m m) with (Pos.compare m m);
    rewrite ?Z.compare_refl, ?Pos.compare_refl; reflexivity.
Qed.

Lemma ltb_trans x y z :
  PrimFloat.ltb x y = true -> PrimFloat.ltb y z = true -> PrimFloat.ltb x z = true.
Proof. rewrite !ltb_spec. apply SFltb_trans. Qed.

Lemma ltb_cotrans x y z :
  fnonnan y = true -> PrimFloat.ltb x z = true ->
  PrimFloat.ltb x y = true \/ PrimFloat.ltb y z = true.
Proof. rewrite !ltb_spec. apply SFltb_cotrans. Qed.

Lemma ltb_irrefl x : PrimFloat.ltb x x = false.
Proof. rewrite ltb_spec. apply SFltb_irrefl. Qed.

Lemma ltb_asym x y : PrimFloat.ltb x y = true -> PrimFloat.ltb y x = false.
Proof.
  intros H. destruct (PrimFloat.ltb y x) eqn:E; [|reflexivity].
  pose proof (ltb_trans _ _ _ H E) as F. rewrite ltb_irrefl in F. discriminate.
Qed.

(** ** Classes and comparisons with zero and infinity *)

Lemma fpos_of_ltb x : PrimFloat.ltb 0 x = true -> fpos x = true.
Proof.
  rewrite ltb_spec. unfold fpos. change (Prim2SF 0) with (S754_zero false).
  destruct (Prim2SF x) as [[]|[]| |[] ? ?]; cbv; congruence.
Qed.

Lemma ltb_of_fpos x : fpos x = true -> PrimFloat.ltb 0 x = true.
Proof.
  rewrite ltb_spec. unfold fpos. change (Prim2SF 0) with (S754_zero false).
  destruct (Prim2SF x) as [[]|[]| |[] ? ?]; cbv; congruence.
Qed.

Lemma fnonneg_of_leb x : PrimFloat.leb 0 x = true -> fnonneg x = true.
Proof.
  rewrite leb_spec. unfold fnonneg. change (Prim2SF 0) with (S754_zero false).
  destruct (Prim2SF x) as [[]|[]| |[] ? ?]; cbv; congruence.
Qed.

Lemma ffinite_of_ltb x : PrimFloat.ltb (PrimFloat.abs x) infinity = true -> ffinite x = true.
Proof.
  rewrite ltb_spec, abs_spec. unfold ffinite.
  change (Prim2SF infinity) with (S754_infinity false).
  destruct (Prim2SF x) as [[]|[]| |[] ? ?]; cbv; congruence.
Qed.

Lemma fnonneg_not_ltb x : fnonneg x = true -> PrimFloat.ltb x 0 = false.
Proof.
  rewrite ltb_spec. unfold fnonneg. change (Prim2SF 0) with (S754_zero false).
  destruct (Prim2SF x) as [[]|[]| |[] ? ?]; cbv; congruence.
Qed.

Lemma fnonneg_nonnan x : fnonneg x = true -> fnonnan x = true.
Proof. unfold fnonneg, fnonnan. destruct (Prim2SF x) as [[]|[]| |[] ? ?]; cbv; congruence. Qed.

Lemma ffinite_nonnan x : ffinite x = true -> fnonnan x = true.
Proof. unfold ffinite, fnonnan. destruct (Prim2SF x) as [[]|[]| |[] ? ?]; cbv; congruence. Qed.

Lemma fpos_nonneg x : fpos x = true -> fnonneg x = true.
Proof. unfold fpos, fnonneg. destruct (Prim2SF x) as [[]|[]| |[] ? ?]; cbv; congruence. Qed.

Lemma fnonnan_infinity : fnonnan infinity = true.
Proof. reflexivity. Qed.

(** ** Rounding keeps the sign and, above the smallest exponent, never
       rounds a positive mantissa to zero *)

Lemma shr_1_m mrs : 0 <= shr_m mrs -> shr_m (shr_1 mrs) = shr_m mrs / 2.
Proof.
  destruct mrs as [m r s]; simpl; intros Hm.
  destruct m as [|p|p]; [reflexivity| |lia].
  destruct p as [p|p|]; simpl shr_m.
  - rewrite Pos2Z.inj_xI. apply Z.div_unique with 1; lia.
  - rewrite Pos2Z.inj_xO. apply Z.div_unique with 0; lia.
  - reflexivity.
Qed.

Lemma iter_shr_m n : forall mrs,
  0 <= shr_m mrs ->
  shr_m (@SpecFloat.iter_pos shr_record shr_1 n mrs) = shr_m mrs / 2 ^ Zpos n.
Proof.
  induction n as [n IH|n IH|]; intros mrs Hm.
  - change (@SpecFloat.iter_pos shr_record shr_1 n~1 mrs)
      with (@SpecFloat.iter_pos shr_record shr_1 n
              (@SpecFloat.iter_pos shr_record shr_1 n (shr_1 mrs))).
    assert (H1 : 0 <= shr_m (shr_1 mrs)) by (rewrite shr_1_m by lia; apply Z.div_pos; lia).
    assert (H2 : 0 <= shr_m (@SpecFloat.iter_pos shr_record shr_1 n (shr_1 mrs))).
    { rewrite IH by lia. apply Z.div_pos; [lia|]. apply Z.pow_pos_nonneg; lia. }
    rewrite IH, IH, shr_1_m by lia.
    rewrite !Z.div_div by (try apply Z.pow_pos_nonneg; lia).
    f_equal. change 2 with (2 ^ 1) at 1. rewrite <- !Z.pow_add_r by lia. f_equal. lia.
  - change (@SpecFloat.iter_pos shr_record shr_1 n~0 mrs)
      with (@SpecFloat.iter_pos shr_record shr_1 n
              (@SpecFloat.iter_pos shr_record shr_1 n mrs)).
    assert (H2 : 0 <= shr_m (@SpecFloat.iter_pos shr_record shr_1 n mrs)).
    { rewrite IH by lia. apply Z.div_pos; [lia|]. apply Z.pow_pos_nonneg; lia. }
    rewrite IH, IH by lia.
    rewrite !Z.div_div by (try apply Z.pow_pos_nonneg; lia).
    f_equal. rewrite <- Z.pow_add_r by lia. f_equal. lia.
  - change (@SpecFloat.iter_pos shr_record shr_1 1 mrs) with (shr_1 mrs).
    rewrite shr_1_m by lia. reflexivity.
Qed.

Lemma digits2_pos_lb m : 2 ^ (Zpos (digits2_pos m) - 1) <= Zpos m.
Proof.
  induction m as [m IH|m IH|]; simpl digits2_pos.
  - rewrite Pos2Z.inj_succ.
    replace (Z.succ (Z.pos (digits2_pos m)) - 1) with (1 + (Z.pos (digits2_pos m) - 1)) by lia.
    rewrite Z.pow_add_r by lia. lia.
  - rewrite Pos2Z.inj_succ.
    replace (Z.succ (Z.pos (digits2_pos m)) - 1) with (1 + (Z.pos (digits2_pos m) - 1)) by lia.
    rewrite Z.pow_add_r by lia. lia.
  - simpl. lia.
Qed.

Lemma shr_fexp_pos m e l :
  0 < m -> emin <= e ->
  0 < shr_m (fst (shr_fexp prec emax m e l)) /\ emin <= snd (shr_fexp prec emax m e l).
Proof.
  intros Hm He. unfold shr_fexp, shr.
  destruct m as [|p|p]; try lia. simpl Zdigits2.
  assert (Hrec : shr_m (shr_record_of_loc (Z.pos p) l) = Z.pos p)
    by (destruct l as [|[]]; reflexivity).
  destruct (fexp prec emax (Z.pos (digits2_pos p) + e) - e) as [|n|n] eqn:Hn;
    simpl fst; simpl snd.
  - rewrite Hrec. lia.
  - rewrite iter_shr_m by (rewrite Hrec; lia). rewrite Hrec.
    unfold fexp, SpecFloat.emin, prec, emax in *.
    split; [|lia].
    assert (Hd := digits2_pos_lb p).
    assert (Hn' : Z.pos n = Z.pos (digits2_pos p) - 53) by lia.
    apply Z.div_str_pos. split; [apply Z.pow_pos_nonneg; lia|].
    etransitivity; [|exact Hd]. apply Z.pow_le_mono_r; lia.
  - rewrite Hrec. lia.
Qed.

Lemma shr_fexp_nonneg m e l :
  0 <= m -> 0 <= shr_m (fst (shr_fexp prec emax m e l)).
Proof.
  intros Hm. unfold shr_fexp, shr.
  assert (Hrec : shr_m (shr_record_of_loc m l) = m)
    by (destruct l as [|[]]; reflexivity).
  destruct (fexp prec emax (Zdigits2 m + e) - e) as [|n|n]; simpl fst;
    rewrite ?iter_shr_m, Hrec; try lia.
  apply Z.div_pos; [lia|apply Z.pow_pos_nonneg; lia].
Qed.

Lemma round_nearest_even_ge m l : m <= round_nearest_even m l.
Proof. destruct l as [|[]]; simpl; try lia. destruct (Z.even m); lia. Qed.

Lemma binary_round_aux_pos sx m e l :
  0 < m -> emin <= e ->
  binary_round_aux prec emax sx m e l = S754_infinity sx \/
  exists m' e', binary_round_aux prec emax sx m e l = S754_finite sx m' e'.
Proof.
  intros Hm He. unfold binary_round_aux.
  destruct (shr_fexp_pos m e l Hm He) as [H1 H1'].
  destruct (shr_fexp prec emax m e l) as [mrs' e']; simpl in H1, H1'.
  pose proof (round_nearest_even_ge (shr_m mrs') (loc_of_shr_record mrs')) as Hr.
  destruct (shr_fexp_pos (round_nearest_even (shr_m mrs') (loc_of_shr_record mrs'))
              e' loc_Exact ltac:(lia) H1') as [H2 _].
  destruct (shr_fexp prec emax _ e' loc_Exact) as [mrs'' e'']; simpl in H2.
  destruct (shr_m mrs'') as [|p|p]; try lia.
  destruct (e'' <=? emax - prec); eauto.
Qed.

Lemma binary_round_aux_sign sx m e l :
  0 <= m ->
  match binary_round_aux prec emax sx m e l with
  | S754_zero s | S754_infinity s | S754_finite s _ _ => s = sx
  | S754_nan => False
  end.
Proof.
  intros Hm. unfold binary_round_aux.
  pose proof (shr_fexp_nonneg m e l Hm) as H1.
  destruct (shr_fexp prec emax m e l) as [mrs' e']; simpl in H1.
  pose proof (round_nearest_even_ge (shr_m mrs') (loc_of_shr_record mrs')) as Hr.
  pose proof (shr_fexp_nonneg (round_nearest_even (shr_m mrs') (loc_of_shr_record mrs'))
                e' loc_Exact ltac:(lia)) as H2.
  destruct (shr_fexp prec emax _ e' loc_Exact) as [mrs'' e'']; simpl in H2.
  destruct (shr_m mrs'') as [|p|p]; try lia; try reflexivity.
  destruct (e'' <=? emax - prec); reflexivity.
Qed.

Lemma shl_align_exp mx ex ex' :
  emin <= ex -> emin <= ex' -> emin <= snd (shl_align mx ex ex').
Proof. intros. unfold shl_align. destruct (ex' - ex); simpl; lia. Qed.

Lemma binary_round_pos sx mx ex :
  emin <= ex ->
  binary_round prec emax sx mx ex = S754_infinity sx \/
  exists m' e', binary_round prec emax sx mx ex = S754_finite sx m' e'.
Proof.
  intros He. unfold binary_round.
  pose proof (shl_align_exp mx ex (fexp prec emax (Z.pos (digits2_pos mx) + ex)) He) as H.
  destruct (shl_align mx ex _) as [mz ez]. simpl in H.
  apply binary_round_aux_pos; [lia|]. apply H. unfold fexp. lia.
Qed.

Lemma binary_round_sign sx mx ex :
  match binary_round prec emax sx mx ex with
  | S754_zero s | S754_infinity s | S754_finite s _ _ => s = sx
  | S754_nan => False
  end.
Proof.
  unfold binary_round. destruct (shl_align mx ex _) as [mz ez].
  apply binary_round_aux_sign. lia.
Qed.

Lemma binary_normalize_nonnan m e s : sf_nonnan (binary_normalize prec emax m e s) = true.
Proof.
  destruct m as [|p|p]; simpl; [reflexivity| |].
  - pose proof (binary_round_sign false p e) as H.
    destruct (binary_round prec emax false p e); [reflexivity..|contradiction|reflexivity].
  - pose proof (binary_round_sign true p e) as H.
    destruct (binary_round prec emax true p e); [reflexivity..|contradiction|reflexivity].
Qed.

Lemma valid_binary_emin s m e : valid_binary (S754_finite s m e) = true -> emin <= e.
Proof.
  simpl. unfold bounded, canonical_mantissa, fexp. intros H.
  apply andb_true_iff in H as [H _]. apply Z.eqb_eq in H. lia.
Qed.

(** ** Sums *)

Lemma SFadd_pos_l x y :
  valid_binary x = true -> valid_binary y = true ->
  sf_pos x = true -> sf_nonneg y = true -> sf_pos (SFadd prec emax x y) = true.
Proof.
  intros Vx Vy Hx Hy.
  destruct x as [[]|[]| |[] mx ex]; try discriminate;
  destruct y as [[]|[]| |[] my ey]; try discriminate; try reflexivity.
  apply valid_binary_emin in Vx, Vy.
  unfold SFadd. simpl cond_Zopp.
  rewrite <- Pos2Z.inj_add. unfold binary_normalize.
  destruct (binary_round_pos false
              (fst (shl_align mx ex (Z.min ex ey)) + fst (shl_align my ey (Z.min ex ey)))
              (Z.min ex ey) ltac:(lia))
    as [-> | (m' & e' & ->)]; reflexivity.
Qed.

Lemma SFadd_pos_r x y :
  valid_binary x = true -> valid_binary y = true ->
  sf_nonneg x = true -> sf_pos y = true -> sf_pos (SFadd prec emax x y) = true.
Proof.
  intros Vx Vy Hx Hy.
  destruct x as [[]|[]| |[] mx ex]; try discriminate;
  destruct y as [[]|[]| |[] my ey]; try discriminate; try reflexivity.
  apply valid_binary_emin in Vx, Vy.
  unfold SFadd. simpl cond_Zopp.
  rewrite <- Pos2Z.inj_add. unfold binary_normalize.
  destruct (binary_round_pos false
              (fst (shl_align mx ex (Z.min ex ey)) + fst (shl_align my ey (Z.min ex ey)))
              (Z.min ex ey) ltac:(lia))
    as [-> | (m' & e' & ->)]; reflexivity.
Qed.

Lemma SFadd_nonneg x y :
  sf_nonneg x = true -> sf_nonneg y = true -> sf_nonneg (SFadd prec emax x y) = true.
Proof.
  intros Hx Hy.
  destruct x as [[]|[]| |[] mx ex]; try discriminate;
  destruct y as [[]|[]| |[] my ey]; try discriminate; try reflexivity.
  unfold SFadd. simpl cond_Zopp.
  rewrite <- Pos2Z.inj_add. unfold binary_normalize.
  pose proof (binary_round_sign false
                (fst (shl_align mx ex (Z.min ex ey)) + fst (shl_align my ey (Z.min ex ey)))
                (Z.min ex ey)) as H.
  destruct (binary_round prec emax false _ _); subst; try reflexivity; contradiction.
Qed.

Lemma SFadd_nonnan x y :
  sf_nonnan x = true -> sf_finite y = true -> sf_nonnan (SFadd prec emax x y) = true.
Proof.
  intros Hx Hy.
  destruct x as [[]|[]| |sx mx ex]; try discriminate;
  destruct y as [[]|[]| |sy my ey]; try discriminate; try reflexivity.
  unfold SFadd. apply binary_normalize_nonnan.
Qed.

Lemma add_pos_l x y : fpos x = true -> fnonneg y = true -> fpos (x + y)%float = true.
Proof. unfold fpos, fnonneg. rewrite add_spec. apply SFadd_pos_l; apply Prim2SF_valid. Qed.

Lemma add_pos_r x y : fnonneg x = true -> fpos y = true -> fpos (x + y)%float = true.
Proof. unfold fpos, fnonneg. rewrite add_spec. apply SFadd_pos_r; apply Prim2SF_valid. Qed.

Lemma add_nonneg x y : fnonneg x = true -> fnonneg y = true -> fnonneg (x + y)%float = true.
Proof. unfold fnonneg. rewrite add_spec. apply SFadd_nonneg. Qed.

Lemma add_nonnan x y : fnonnan x = true -> ffinite y = true -> fnonnan (x + y)%float = true.
Proof. unfold fnonnan, ffinite. rewrite add_spec. apply SFadd_nonnan. Qed.

(** A sum of two non-negative terms is positive as soon as one is, and
    conversely. *)
Lemma add_pos_inv x y :
  fnonneg x = true -> fnonneg y = true ->
  fpos (x + y)%float = false -> fpos x = false /\ fpos y = false.
Proof.
  intros Hx Hy H. split.
  - destruct (fpos x) eqn:E; [|reflexivity]. rewrite add_pos_l in H; auto.
  - destruct (fpos y) eqn:E; [|reflexivity]. rewrite add_pos_r in H; auto.
Qed.

(** ** Small integers as floats *)

Lemma Z2F_F63 z : 0 <= z < 2 ^ 62 -> Z2F z = F63 z.
Proof.
  intros Hz. unfold Z2F, F63.
  rewrite <- (SF2Prim_Prim2SF (of_uint63 (Uint63.of_Z z))).
  rewrite of_uint63_spec. do 2 f_equal.
  rewrite Uint63.of_Z_spec. symmetry. apply Z.mod_small.
  change Uint63.wB with (2 ^ 63). lia.
Qed.

(** ** Exhaustive checks *)

Lemma all_range_spec k : forall lo P,
  all_range k lo P = true -> forall z, lo <= z < lo + 2 ^ Z.of_nat k -> P z = true.
Proof.
  induction k as [|k IH]; intros lo P H z Hz.
  - simpl in *. replace z with lo by lia. exact H.
  - simpl all_range in H. apply andb_true_iff in H as [H1 H2].
    rewrite Nat2Z.inj_succ, Z.pow_succ_r in Hz by lia.
    destruct (Z_lt_ge_dec z (lo + 2 ^ Z.of_nat k)).
    + apply (IH lo); [exact H1|lia].
    + apply (IH (lo + 2 ^ Z.of_nat k)); [exact H2|lia].
Qed.

Lemma radicands_checked : all_range 18 0 radicand_ok = true.
Proof. vm_compute. reflexivity. Qed.

Lemma channels_checked :
  all_range 8 0 (fun x => all_range 8 0 (fun y => channel_ok x y && hue_ok x y)) = true.
Proof. vm_compute. reflexivity. Qed.

Lemma hue_opposites_checked : all_range 8 0 hue_opposite_ok = true.
Proof. vm_compute. reflexivity. Qed.


(* ===================================================================== *)
(** * The distances of color_algorithms.py                                *)
(* ===================================================================== *)

(** ** Channel values *)

Lemma u8_range b : 0 <= u8 b < 256.
Proof. unfold u8. pose proof (Byte.to_N_bounded b). lia. Qed.

Lemma u8_inj a b : u8 a = u8 b -> a = b.
Proof.
  unfold u8. intros H. apply N2Z.inj in H.
  pose proof (Byte.of_to_N a) as Ha. pose proof (Byte.of_to_N b) as Hb.
  rewrite H in Ha. congruence.
Qed.

Lemma u8_sub_range a b : 0 <= u8_sub a b <= 255.
Proof. unfold u8_sub. pose proof (Z.mod_pos_bound (u8 a - u8 b) 256). lia. Qed.

Lemma u8_sub_zero a b : u8_sub a b = 0 -> a = b.
Proof.
  unfold u8_sub. intros H. apply u8_inj.
  pose proof (u8_range a). pose proof (u8_range b).
  apply Z.mod_divide in H; [|lia]. destruct H as [k Hk]. lia.
Qed.

Lemma u8_sub_diag a : u8_sub a a = 0.
Proof. unfold u8_sub. rewrite Z.sub_diag. reflexivity. Qed.

Lemma sum_squares_range p t : 0 <= sum_squares (u8x3_sub p t) <= 195075.
Proof.
  unfold sum_squares, u8x3_sub.
  pose proof (u8_sub_range (chan0 p) (chan0 t)).
  pose proof (u8_sub_range (chan1 p) (chan1 t)).
  pose proof (u8_sub_range (chan2 p) (chan2 t)). nia.
Qed.

Lemma sum_squares_zero p t : sum_squares (u8x3_sub p t) = 0 -> p = t.
Proof.
  unfold sum_squares, u8x3_sub. intros H.
  pose proof (u8_sub_range (chan0 p) (chan0 t)).
  pose proof (u8_sub_range (chan1 p) (chan1 t)).
  pose proof (u8_sub_range (chan2 p) (chan2 t)).
  assert (E0 : u8_sub (chan0 p) (chan0 t) = 0) by nia.
  assert (E1 : u8_sub (chan1 p) (chan1 t) = 0) by nia.
  assert (E2 : u8_sub (chan2 p) (chan2 t) = 0) by nia.
  apply u8_sub_zero in E0, E1, E2.
  destruct p as [[p0 p1] p2], t as [[t0 t1] t2]. unfold chan0, chan1, chan2 in *.
  simpl in *. congruence.
Qed.

Lemma sum_squares_diag p : sum_squares (u8x3_sub p p) = 0.
Proof. unfold sum_squares, u8x3_sub. rewrite !u8_sub_diag. reflexivity. Qed.

(** ** What the exhaustive checks give *)

Lemma term_ok_spec z t :
  term_ok z t = true ->
  fnonneg t = true /\ ffinite t = true /\ (if z then t = 0%float else fpos t = true).
Proof.
  unfold term_ok. intros H.
  apply andb_true_iff in H as [H H3]. apply andb_true_iff in H as [H1 H2].
  split; [apply fnonneg_of_leb, H1|]. split; [apply ffinite_of_ltb, H2|].
  destruct z; [apply Leibniz.eqb_spec, H3 | apply fpos_of_ltb, H3].
Qed.

(** A term that is the float zero is not strictly positive. *)
Lemma fpos_zero : fpos 0 = false.
Proof. reflexivity. Qed.

Lemma term_ok_zero z t : term_ok z t = true -> fpos t = false -> z = true.
Proof.
  intros H Hp. apply term_ok_spec in H as (_ & _ & H).
  destruct z; [reflexivity|congruence].
Qed.

Lemma radicand_facts r : 0 <= r <= 195075 -> radicand_ok r = true.
Proof.
  intros H. apply (all_range_spec 18 0 _ radicands_checked).
  change (2 ^ Z.of_nat 18) with 262144. lia.
Qed.

Lemma cv_norm_F63 p t :
  cv_norm (u8x3_sub p t) = PrimFloat.sqrt (F63 (sum_squares (u8x3_sub p t))).
Proof.
  unfold cv_norm. rewrite Z2F_F63; [reflexivity|].
  pose proof (sum_squares_range p t). lia.
Qed.

(** The four terms built on a norm. *)
Lemma norm_terms p t :
  let z := sum_squares (u8x3_sub p t) =? 0 in
  let d := cv_norm (u8x3_sub p t) in
  term_ok z d = true /\ term_ok z (d * 2)%float = true
  /\ term_ok z (0.6 * d)%float = true /\ term_ok z (0.4 * d)%float = true.
Proof.
  intros z d. subst z d. rewrite cv_norm_F63.
  pose proof (radicand_facts _ (sum_squares_range p t)) as H.
  unfold radicand_ok in H.
  apply andb_true_iff in H as [H H4]. apply andb_true_iff in H as [H H3].
  apply andb_true_iff in H as [H1 H2]. auto.
Qed.

Lemma abs_diff_63 a b : abs_diff a b = abs_diff63 (u8 a) (u8 b).
Proof.
  unfold abs_diff, abs_diff63, fl.
  pose proof (u8_range a). pose proof (u8_range b).
  rewrite !Z2F_F63 by lia. reflexivity.
Qed.

Lemma hue_dist_63 a b : hue_dist a b = hue_dist63 (u8 a) (u8 b).
Proof. unfold hue_dist, hue_dist63. rewrite abs_diff_63. reflexivity. Qed.

Lemma channel_facts a b : channel_ok (u8 a) (u8 b) = true /\ hue_ok (u8 a) (u8 b) = true.
Proof.
  pose proof (u8_range a). pose proof (u8_range b).
  assert (Ha : 0 <= u8 a < 0 + 2 ^ Z.of_nat 8) by (change (2 ^ Z.of_nat 8) with 256; lia).
  assert (Hb : 0 <= u8 b < 0 + 2 ^ Z.of_nat 8) by (change (2 ^ Z.of_nat 8) with 256; lia).
  pose proof (all_range_spec 8 0 _ channels_checked (u8 a) Ha) as H1.
  cbv beta in H1.
  pose proof (all_range_spec 8 0 _ H1 (u8 b) Hb) as H2.
  cbv beta in H2. apply andb_true_iff in H2. exact H2.
Qed.

(** The five terms built on the difference of two channels. *)
Lemma channel_terms a b :
  let z := u8 a =? u8 b in
  let t := (abs_diff a b / 255)%float in
  term_ok z (0.25 * t)%float = true
  /\ term_ok z (0.5 * (abs_diff a b / 100))%float = true
  /\ term_ok z (t * 100)%float = true
  /\ term_ok z (0.25 * t * 255)%float = true
  /\ term_ok z (0.15 * t * 255)%float = true.
Proof.
  intros z t. subst z t. rewrite abs_diff_63.
  destruct (channel_facts a b) as [H _]. unfold channel_ok in H.
  apply andb_true_iff in H as [H H5]. apply andb_true_iff in H as [H H4].
  apply andb_true_iff in H as [H H3]. apply andb_true_iff in H as [H1 H2]. auto.
Qed.

Lemma u8_eqb_true a b : (u8 a =? u8 b) = true -> a = b.
Proof. intros H. apply u8_inj. lia. Qed.

Lemma u8_eqb_refl a : (u8 a =? u8 a) = true.
Proof. apply Z.eqb_refl. Qed.

(** The two hue terms are finite whatever the hues. *)
Lemma hue_terms_finite a b :
  ffinite (0.5 * hue_dist a b)%float = true
  /\ ffinite (0.6 * hue_dist a b * 255)%float = true.
Proof.
  rewrite hue_dist_63. destruct (channel_facts a b) as [_ H]. unfold hue_ok in H.
  apply andb_true_iff in H as [H _]. apply andb_true_iff in H as [H1 H2].
  split; apply ffinite_of_ltb; assumption.
Qed.

(** For hues up to 180 they vanish exactly on equal or opposite hues. *)
Lemma hue_terms a b :
  u8 a <= 180 -> u8 b <= 180 ->
  let z := (u8 a =? u8 b) || (Z.abs (u8 a - u8 b) =? 180) in
  term_ok z (0.5 * hue_dist a b)%float = true
  /\ term_ok z (0.6 * hue_dist a b * 255)%float = true.
Proof.
  intros Ha Hb z. subst z. rewrite hue_dist_63.
  destruct (channel_facts a b) as [_ H]. unfold hue_ok in H.
  apply andb_true_iff in H as [_ H].
  replace (u8 a <=? 180) with true in H by lia.
  replace (u8 b <=? 180) with true in H by lia.
  simpl in H. apply andb_true_iff in H. exact H.
Qed.

(** Equal or opposite hues are at the same hue distance from any hue. *)
Lemma hue_dist_equiv a b c :
  u8 a <= 180 -> u8 b <= 180 -> u8 c <= 180 ->
  (u8 a =? u8 b) || (Z.abs (u8 a - u8 b) =? 180) = true ->
  hue_dist c b = hue_dist c a.
Proof.
  intros Ha Hb Hc H. apply orb_true_iff in H as [H|H].
  - apply u8_eqb_true in H. subst. reflexivity.
  - pose proof (u8_range a). pose proof (u8_range b). pose proof (u8_range c).
    assert (Hc8 : 0 <= u8 c < 0 + 2 ^ Z.of_nat 8) by (change (2 ^ Z.of_nat 8) with 256; lia).
    pose proof (all_range_spec 8 0 _ hue_opposites_checked (u8 c) Hc8) as Hx.
    unfold hue_opposite_ok in Hx. replace (u8 c <=? 180) with true in Hx by lia.
    apply andb_true_iff in Hx as [Hx1 Hx2].
    apply Leibniz.eqb_spec in Hx1, Hx2.
    rewrite !hue_dist_63.
    assert (Hab : (u8 a = 0 /\ u8 b = 180) \/ (u8 a = 180 /\ u8 b = 0)) by lia.
    destruct Hab as [[-> ->]|[-> ->]]; congruence.
Qed.

(** ** The seven distances *)

Section Distances.
Context {cv : OpenCV}.

Lemma color_eta (c : Color) : (chan0 c, chan1 c, chan2 c) = c.
Proof. destruct c as [[a b] d]. reflexivity. Qed.

Lemma sum_squares_eqb_true p t : (sum_squares (u8x3_sub p t) =? 0) = true -> p = t.
Proof. intros H. apply sum_squares_zero. lia. Qed.

Lemma rgb_dist_good : good_metric rgb_dist.
Proof.
  repeat split.
  - intros p t. destruct (norm_terms p t) as (H & _). apply term_ok_spec in H. tauto.
  - intros q. destruct (norm_terms q q) as (H & _). apply term_ok_spec in H as (_ & _ & H).
    rewrite sum_squares_diag in H. exact H.
  - intros q t Hp p. destruct (norm_terms q t) as (H & _).
    apply term_ok_zero in H; [|exact Hp]. apply sum_squares_eqb_true in H. congruence.
Qed.

Lemma simple_dist_good : good_metric simple_dist.
Proof.
  repeat split.
  - intros p t. unfold simple_dist. destruct (norm_terms p t) as (H1 & H2 & _).
    apply term_ok_spec in H1, H2. destruct (_ && _); tauto.
  - intros q. unfold simple_dist. destruct (norm_terms q q) as (H1 & H2 & _).
    apply term_ok_spec in H1 as (_ & _ & H1), H2 as (_ & _ & H2).
    rewrite sum_squares_diag in H1, H2. unfold rgb_dist. destruct (_ && _); assumption.
  - intros q t Hp p. unfold simple_dist in Hp. destruct (norm_terms q t) as (H1 & H2 & _).
    assert (Hz : (sum_squares (u8x3_sub q t) =? 0) = true).
    { unfold rgb_dist in Hp. destruct (_ && _); eauto using term_ok_zero. }
    apply sum_squares_eqb_true in Hz. congruence.
Qed.

Lemma weighted_dist_good : good_metric weighted_dist.
Proof.
  repeat split.
  - intros p t. unfold weighted_dist. destruct (norm_terms p t) as (H1 & _).
    destruct (channel_terms (chan1 (RGB2HSV p)) (chan1 (RGB2HSV t))) as (_ & _ & H2 & _).
    apply term_ok_spec in H1, H2. apply add_nonneg; tauto.
  - intros q. unfold weighted_dist. destruct (norm_terms q q) as (H1 & _).
    destruct (channel_terms (chan1 (RGB2HSV q)) (chan1 (RGB2HSV q))) as (_ & _ & H2 & _).
    apply term_ok_spec in H1 as (_ & _ & H1), H2 as (_ & _ & H2).
    rewrite sum_squares_diag in H1. rewrite u8_eqb_refl in H2.
    unfold rgb_dist. rewrite H1, H2. reflexivity.
  - intros q t Hp p. unfold weighted_dist in Hp. destruct (norm_terms q t) as (H1 & _).
    destruct (channel_terms (chan1 (RGB2HSV q)) (chan1 (RGB2HSV t))) as (_ & _ & H2 & _).
    pose proof (term_ok_spec _ _ H1) as (N1 & _). pose proof (term_ok_spec _ _ H2) as (N2 & _).
    apply add_pos_inv in Hp as [Hp _]; [|exact N1|exact N2].
    apply term_ok_zero in H1; [|exact Hp]. apply sum_squares_eqb_true in H1. congruence.
Qed.

Lemma perceptual_dist_good : good_metric perceptual_dist.
Proof.
  repeat split.
  - intros p t. unfold perceptual_dist. destruct (norm_terms p t) as (_ & _ & _ & H1).
    destruct (norm_terms (RGB2LAB p) (RGB2LAB t)) as (_ & _ & H2 & _).
    apply term_ok_spec in H1, H2. apply add_nonneg; tauto.
  - intros q. unfold perceptual_dist. destruct (norm_terms q q) as (_ & _ & _ & H1).
    destruct (norm_terms (RGB2LAB q) (RGB2LAB q)) as (_ & _ & H2 & _).
    apply term_ok_spec in H1 as (_ & _ & H1), H2 as (_ & _ & H2).
    rewrite sum_squares_diag in H1, H2. unfold rgb_dist. rewrite H1, H2. reflexivity.
  - intros q t Hp p. unfold perceptual_dist in Hp. destruct (norm_terms q t) as (_ & _ & _ & H1).
    destruct (norm_terms (RGB2LAB q) (RGB2LAB t)) as (_ & _ & H2 & _).
    pose proof (term_ok_spec _ _ H1) as (N1 & _). pose proof (term_ok_spec _ _ H2) as (N2 & _).
    apply add_pos_inv in Hp as [_ Hp]; [|exact N2|exact N1].
    apply term_ok_zero in H1; [|exact Hp]. apply sum_squares_eqb_true in H1. congruence.
Qed.

Lemma lab_dist_good : good_metric lab_dist.
Proof.
  repeat split.
  - intros p t. unfold lab_dist.
    destruct (channel_terms (chan0 (RGB2LAB p)) (chan0 (RGB2LAB t))) as (_ & H0 & _).
    destruct (channel_terms (chan1 (RGB2LAB p)) (chan1 (RGB2LAB t))) as (H1 & _).
    destruct (channel_terms (chan2 (RGB2LAB p)) (chan2 (RGB2LAB t))) as (H2 & _).
    apply term_ok_spec in H0, H1, H2. repeat apply add_nonneg; tauto.
  - intros q. unfold lab_dist.
    destruct (channel_terms (chan0 (RGB2LAB q)) (chan0 (RGB2LAB q))) as (_ & H0 & _).
    destruct (channel_terms (chan1 (RGB2LAB q)) (chan1 (RGB2LAB q))) as (H1 & _).
    destruct (channel_terms (chan2 (RGB2LAB q)) (chan2 (RGB2LAB q))) as (H2 & _).
    apply term_ok_spec in H0 as (_ & _ & H0), H1 as (_ & _ & H1), H2 as (_ & _ & H2).
    rewrite u8_eqb_refl in H0, H1, H2. rewrite H0, H1, H2. reflexivity.
  - intros q t Hp p. unfold lab_dist in Hp.
    destruct (channel_terms (chan0 (RGB2LAB q)) (chan0 (RGB2LAB t))) as (_ & H0 & _).
    destruct (channel_terms (chan1 (RGB2LAB q)) (chan1 (RGB2LAB t))) as (H1 & _).
    destruct (channel_terms (chan2 (RGB2LAB q)) (chan2 (RGB2LAB t))) as (H2 & _).
    pose proof (term_ok_spec _ _ H0) as (N0 & _). pose proof (term_ok_spec _ _ H1) as (N1 & _).
    pose proof (term_ok_spec _ _ H2) as (N2 & _).
    apply add_pos_inv in Hp as [Hp Hp2]; [|apply add_nonneg; assumption|exact N2].
    apply add_pos_inv in Hp as [Hp0 Hp1]; [|exact N0|exact N1].
    apply term_ok_zero in H0; [|exact Hp0]. apply term_ok_zero in H1; [|exact Hp1].
    apply term_ok_zero in H2; [|exact Hp2].
    apply u8_eqb_true in H0, H1, H2. unfold lab_dist. rewrite <- H0, <- H1, <- H2. reflexivity.
Qed.

Lemma hsv_dist_good : hue_in_range cv -> good_metric hsv_dist.
Proof.
  intros Hue. repeat split.
  - intros p t. unfold hsv_dist.
    destruct (hue_terms _ _ (Hue p) (Hue t)) as (H0 & _).
    destruct (channel_terms (chan1 (RGB2HSV p)) (chan1 (RGB2HSV t))) as (H1 & _).
    destruct (channel_terms (chan2 (RGB2HSV p)) (chan2 (RGB2HSV t))) as (H2 & _).
    apply term_ok_spec in H0, H1, H2. repeat apply add_nonneg; tauto.
  - intros q. unfold hsv_dist.
    destruct (hue_terms _ _ (Hue q) (Hue q)) as (H0 & _).
    destruct (channel_terms (chan1 (RGB2HSV q)) (chan1 (RGB2HSV q))) as (H1 & _).
    destruct (channel_terms (chan2 (RGB2HSV q)) (chan2 (RGB2HSV q))) as (H2 & _).
    apply term_ok_spec in H0 as (_ & _ & H0), H1 as (_ & _ & H1), H2 as (_ & _ & H2).
    rewrite u8_eqb_refl in H0, H1, H2. simpl in H0. rewrite H0, H1, H2. reflexivity.
  - intros q t Hp p. unfold hsv_dist in Hp.
    destruct (hue_terms _ _ (Hue q) (Hue t)) as (H0 & _).
    destruct (channel_terms (chan1 (RGB2HSV q)) (chan1 (RGB2HSV t))) as (H1 & _).
    destruct (channel_terms (chan2 (RGB2HSV q)) (chan2 (RGB2HSV t))) as (H2 & _).
    pose proof (term_ok_spec _ _ H0) as (N0 & _). pose proof (term_ok_spec _ _ H1) as (N1 & _).
    pose proof (term_ok_spec _ _ H2) as (N2 & _).
    apply add_pos_inv in Hp as [Hp Hp2]; [|apply add_nonneg; assumption|exact N2].
    apply add_pos_inv in Hp as [Hp0 Hp1]; [|exact N0|exact N1].
    apply term_ok_zero in H0; [|exact Hp0]. apply term_ok_zero in H1; [|exact Hp1].
    apply term_ok_zero in H2; [|exact Hp2].
    apply u8_eqb_true in H1, H2. unfold hsv_dist. rewrite <- H1, <- H2.
    rewrite (hue_dist_equiv _ _ _ (Hue q) (Hue t) (Hue p) H0). reflexivity.
Qed.

Lemma perceptual_hsv_dist_good : hue_in_range cv -> good_metric perceptual_hsv_dist.
Proof.
  intros Hue. repeat split.
  - intros p t. unfold perceptual_hsv_dist.
    destruct (hue_terms _ _ (Hue p) (Hue t)) as (_ & H0).
    destruct (channel_terms (chan1 (RGB2HSV p)) (chan1 (RGB2HSV t))) as (_ & _ & _ & H1 & _).
    destruct (channel_terms (chan2 (RGB2HSV p)) (chan2 (RGB2HSV t))) as (_ & _ & _ & _ & H2).
    apply term_ok_spec in H0, H1, H2. repeat apply add_nonneg; tauto.
  - intros q. unfold perceptual_hsv_dist.
    destruct (hue_terms _ _ (Hue q) (Hue q)) as (_ & H0).
    destruct (channel_terms (chan1 (RGB2HSV q)) (chan1 (RGB2HSV q))) as (_ & _ & _ & H1 & _).
    destruct (channel_terms (chan2 (RGB2HSV q)) (chan2 (RGB2HSV q))) as (_ & _ & _ & _ & H2).
    apply term_ok_spec in H0 as (_ & _ & H0), H1 as (_ & _ & H1), H2 as (_ & _ & H2).
    rewrite u8_eqb_refl in H0, H1, H2. simpl in H0. rewrite H0, H1, H2. reflexivity.
  - intros q t Hp p. unfold perceptual_hsv_dist in Hp.
    destruct (hue_terms _ _ (Hue q) (Hue t)) as (_ & H0).
    destruct (channel_terms (chan1 (RGB2HSV q)) (chan1 (RGB2HSV t))) as (_ & _ & _ & H1 & _).
    destruct (channel_terms (chan2 (RGB2HSV q)) (chan2 (RGB2HSV t))) as (_ & _ & _ & _ & H2).
    pose proof (term_ok_spec _ _ H0) as (N0 & _). pose proof (term_ok_spec _ _ H1) as (N1 & _).
    pose proof (term_ok_spec _ _ H2) as (N2 & _).
    apply add_pos_inv in Hp as [Hp Hp2]; [|apply add_nonneg; assumption|exact N2].
    apply add_pos_inv in Hp as [Hp0 Hp1]; [|exact N0|exact N1].
    apply term_ok_zero in H0; [|exact Hp0]. apply term_ok_zero in H1; [|exact Hp1].
    apply term_ok_zero in H2; [|exact Hp2].
    apply u8_eqb_true in H1, H2. unfold perceptual_hsv_dist. rewrite <- H1, <- H2.
    rewrite (hue_dist_equiv _ _ _ (Hue q) (Hue t) (Hue p) H0). reflexivity.
Qed.

(** None of the seven distances is ever NaN, whatever the conversions. *)

Lemma good_metric_nonnan D : good_metric D -> forall p t, fnonnan (D p t) = true.
Proof. intros (H & _) p t. apply fnonneg_nonnan, H. Qed.

Lemma hsv_dist_nonnan p t : fnonnan (hsv_dist p t) = true.
Proof.
  unfold hsv_dist.
  destruct (hue_terms_finite (chan0 (RGB2HSV p)) (chan0 (RGB2HSV t))) as (H0 & _).
  destruct (channel_terms (chan1 (RGB2HSV p)) (chan1 (RGB2HSV t))) as (H1 & _).
  destruct (channel_terms (chan2 (RGB2HSV p)) (chan2 (RGB2HSV t))) as (H2 & _).
  apply term_ok_spec in H1 as (_ & H1 & _), H2 as (_ & H2 & _).
  apply add_nonnan; [|exact H2]. apply add_nonnan; [|exact H1].
  apply ffinite_nonnan, H0.
Qed.

Lemma perceptual_hsv_dist_nonnan p t : fnonnan (perceptual_hsv_dist p t) = true.
Proof.
  unfold perceptual_hsv_dist.
  destruct (hue_terms_finite (chan0 (RGB2HSV p)) (chan0 (RGB2HSV t))) as (_ & H0).
  destruct (channel_terms (chan1 (RGB2HSV p)) (chan1 (RGB2HSV t))) as (_ & _ & _ & H1 & _).
  destruct (channel_terms (chan2 (RGB2HSV p)) (chan2 (RGB2HSV t))) as (_ & _ & _ & _ & H2).
  apply term_ok_spec in H1 as (_ & H1 & _), H2 as (_ & H2 & _).
  apply add_nonnan; [|exact H2]. apply add_nonnan; [|exact H1].
  apply ffinite_nonnan, H0.
Qed.

End Distances.


(* ===================================================================== *)
(** * The scan of the palette                                             *)
(* ===================================================================== *)

Lemma ltb_infinity_l y : PrimFloat.ltb infinity y = false.
Proof.
  rewrite ltb_spec. change (Prim2SF infinity) with (S754_infinity false).
  destruct (Prim2SF y) as [[]|[]| |[] ? ?]; reflexivity.
Qed.

Lemma scan_order_length : length scan_order = 42%nat.
Proof. reflexivity. Qed.

Lemma scan_order_lookup v u :
  (v < 6)%nat -> (u < 7)%nat -> scan_order !! (7 * v + u)%nat = Some (v, u).
Proof.
  intros Hv Hu.
  do 6 (destruct v as [|v]; [do 7 (destruct u as [|u]; [reflexivity|]); lia|]). lia.
Qed.

Lemma scan_order_bounds k c :
  scan_order !! k = Some c -> (fst c < 6)%nat /\ (snd c < 7)%nat /\ k = (7 * fst c + snd c)%nat.
Proof.
  intros H. do 42 (destruct k as [|k]; [inversion H; simpl; lia|]). discriminate.
Qed.

Lemma scan_palette_fold dist tex :
  scan_palette dist tex = snd (fold_left (scan_step dist tex) scan_order scan_init).
Proof. reflexivity. Qed.

Lemma scan_step_eq dist tex st c :
  scan_step dist tex st c =
  if PrimFloat.ltb (cell_dist dist tex c) (fst st) then (cell_dist dist tex c, cell_index c) else st.
Proof. reflexivity. Qed.

Section ScanTheory.
Variable dist : Color -> float.
Variable tex : Image.
Hypothesis dist_nonnan : forall t, fnonnan (dist t) = true.

Local Abbreviation d := (cell_dist dist tex).
Local Abbreviation step := (scan_step dist tex).

(** Either no cell of [l] beat the initial best, or the result is a cell
    that no cell of [l] beats and that beats every cell before it. *)
Lemma scan_fold_spec (l : list (nat * nat)) : forall m b,
  (fold_left step l (m, b) = (m, b)
   /\ forall c, c ∈ l -> PrimFloat.ltb (d c) m = false)
  \/ (exists k ck, l !! k = Some ck
        /\ fold_left step l (m, b) = (d ck, cell_index ck)
        /\ PrimFloat.ltb (d ck) m = true
        /\ (forall c, c ∈ l -> PrimFloat.ltb (d c) (d ck) = false)
        /\ (forall j c, (j < k)%nat -> l !! j = Some c -> PrimFloat.ltb (d ck) (d c) = true)).
Proof.
  induction l as [|c0 l IH]; intros m b.
  - left. split; [reflexivity|]. intros c Hc. inversion Hc.
  - simpl fold_left. rewrite scan_step_eq. simpl fst.
    destruct (PrimFloat.ltb (d c0) m) eqn:E.
    + right. destruct (IH (d c0) (cell_index c0)) as [[Hr Hall]|(k & ck & Hk & Hr & Hlt & Hmin & Hfirst)].
      * exists 0%nat, c0. repeat split; auto.
        -- intros c Hc. apply elem_of_cons in Hc as [->|Hc]; [apply ltb_irrefl|auto].
        -- intros j c Hj. lia.
      * exists (S k), ck. repeat split; auto.
        -- eapply ltb_trans; eauto.
        -- intros c Hc. apply elem_of_cons in Hc as [->|Hc]; [apply ltb_asym, Hlt|auto].
        -- intros j c Hj Hc. destruct j as [|j]; simpl in Hc.
           ++ inversion Hc; subst. exact Hlt.
           ++ apply (Hfirst j); [lia|exact Hc].
    + destruct (IH m b) as [[Hr Hall]|(k & ck & Hk & Hr & Hlt & Hmin & Hfirst)].
      * left. split; [exact Hr|].
        intros c Hc. apply elem_of_cons in Hc as [->|Hc]; auto.
      * right. exists (S k), ck. repeat split; auto.
        -- intros c Hc. apply elem_of_cons in Hc as [->|Hc]; [|auto].
           destruct (PrimFloat.ltb (d c0) (d ck)) eqn:F; [|reflexivity].
           rewrite (ltb_trans _ _ _ F Hlt) in E. discriminate.
        -- intros j c Hj Hc. destruct j as [|j]; simpl in Hc.
           ++ inversion Hc; subst.
              destruct (ltb_cotrans (d ck) (d c) m (dist_nonnan _) Hlt) as [F|F];
                [exact F|congruence].
           ++ apply (Hfirst j); [lia|exact Hc].
Qed.

(** The scan returns the earliest cell of minimal distance. *)
Lemma scan_earliest_min :
  exists k ck, scan_order !! k = Some ck
    /\ scan_palette dist tex = cell_index ck
    /\ (forall c, c ∈ scan_order -> PrimFloat.ltb (d c) (d ck) = false)
    /\ (forall j c, (j < k)%nat -> scan_order !! j = Some c -> PrimFloat.ltb (d ck) (d c) = true).
Proof.
  rewrite scan_palette_fold. unfold scan_init.
  destruct (scan_fold_spec scan_order infinity (0, 0))
    as [[Hr Hall]|(k & ck & Hk & Hr & Hlt & Hmin & Hfirst)].
  - exists 0%nat, (0%nat, 0%nat). rewrite Hr. repeat split; auto.
    + intros c Hc.
      destruct (PrimFloat.ltb (d c) (d (0%nat, 0%nat))) eqn:F; [|reflexivity].
      destruct (ltb_cotrans _ infinity _ fnonnan_infinity F) as [G|G].
      * rewrite (Hall c Hc) in G. discriminate.
      * rewrite ltb_infinity_l in G. discriminate.
    + intros j c Hj. lia.
  - exists k, ck. rewrite Hr. auto.
Qed.

End ScanTheory.

Lemma pixel_at_cell_index tex c :
  pixel_at tex (Z.to_nat (snd (cell_index c))) (Z.to_nat (fst (cell_index c)))
  = pixel_at tex (fst c) (snd c).
Proof. destruct c as [v u]. unfold cell_index. simpl. rewrite !Nat2Z.id. reflexivity. Qed.

(** Re-quantizing the colour of the cell a pixel was matched to gives the
    same cell, for a distance that is safe in the sense of
    [good_metric]. *)
Lemma scan_idempotent (D : Color -> Color -> float) tex :
  good_metric D -> forall p,
  let r := scan_palette (D p) tex in
  scan_palette (D (pixel_at tex (Z.to_nat (snd r)) (Z.to_nat (fst r)))) tex = r.
Proof.
  intros (Hnn & Hself & Htie) p r. subst r.
  assert (NN : forall q t, fnonnan (D q t) = true) by (intros; apply fnonneg_nonnan, Hnn).
  destruct (scan_earliest_min (D p) tex (NN p)) as (k & ck & Hk & Hr & Hmin & Hfirst).
  rewrite Hr, pixel_at_cell_index.
  set (q := pixel_at tex (fst ck) (snd ck)).
  destruct (scan_earliest_min (D q) tex (NN q)) as (k' & ck' & Hk' & Hr' & Hmin' & Hfirst').
  rewrite Hr'.
  assert (Hq : cell_dist (D q) tex ck = 0%float) by (unfold cell_dist; apply Hself).
  assert (Hin : ck ∈ scan_order) by (eapply list_elem_of_lookup_2; eauto).
  pose proof (Hmin' _ Hin) as Hm. rewrite Hq in Hm.
  assert (Hp0 : fpos (cell_dist (D q) tex ck') = false).
  { destruct (fpos _) eqn:F; [|reflexivity]. apply ltb_of_fpos in F. congruence. }
  pose proof (Htie q _ Hp0 p) as Heq.
  destruct (lt_eq_lt_dec k k') as [[Hlt|Heqk]|Hgt].
  - pose proof (Hfirst' k ck Hlt Hk) as F. rewrite Hq in F.
    rewrite fnonneg_not_ltb in F by apply Hnn. discriminate.
  - subst k'. rewrite Hk in Hk'. inversion Hk'. reflexivity.
  - pose proof (Hfirst k' ck' Hgt Hk') as F. unfold cell_dist in F. rewrite Heq in F.
    fold q in F. rewrite ltb_irrefl in F. discriminate.
Qed.

(** ** The family *)

Section Family.
Context {cv : OpenCV}.

Lemma get_algorithm_function_cases name f :
  get_algorithm_function name = Some f ->
  f = find_closest_colour_perceptual \/ f = find_closest_colour_rgb
  \/ f = find_closest_colour_hsv \/ f = find_closest_colour_lab
  \/ f = find_closest_colour_weighted \/ f = find_closest_colour_simple
  \/ f = find_closest_colour_perceptual_hsv.
Proof.
  unfold get_algorithm_function, ALGORITHMS. cbn [find fst].
  repeat (match goal with |- context [String.eqb ?a ?b] => destruct (String.eqb a b) end;
          [cbn; intros H; inversion H; tauto|]).
  discriminate.
Qed.

(** Every function of the family is the scan with one distance to the
    pixel in RGB order, and that distance is never NaN. *)
Lemma family_is_scan name f :
  get_algorithm_function name = Some f ->
  exists D : Color -> Color -> float,
    (forall pixel tex, f pixel tex = scan_palette (D (swap_rb pixel)) tex)
    /\ (forall p t, fnonnan (D p t) = true)
    /\ (hue_in_range cv -> good_metric D).
Proof.
  intros H. apply get_algorithm_function_cases in H.
  destruct H as [->|[->|[->|[->|[->|[->| ->]]]]]].
  - exists perceptual_dist. repeat split; auto using good_metric_nonnan, perceptual_dist_good; apply perceptual_dist_good.
  - exists rgb_dist. repeat split; auto using good_metric_nonnan, rgb_dist_good; apply rgb_dist_good.
  - exists hsv_dist. repeat split; auto using hsv_dist_nonnan; apply hsv_dist_good; assumption.
  - exists lab_dist. repeat split; auto using good_metric_nonnan, lab_dist_good; apply lab_dist_good.
  - exists weighted_dist. repeat split; auto using good_metric_nonnan, weighted_dist_good; apply weighted_dist_good.
  - exists simple_dist. repeat split; auto using good_metric_nonnan, simple_dist_good; apply simple_dist_good.
  - exists perceptual_hsv_dist. repeat split; auto using perceptual_hsv_dist_nonnan; apply perceptual_hsv_dist_good; assumption.
Qed.

End Family.


(* ===================================================================== *)
(** * Strings, tokens and the encoder                                     *)
(* ===================================================================== *)

(** ** Splitting and joining *)

Lemma py_split_nonempty c s : py_split c s <> [].
Proof.
  destruct s as [|a s]; simpl; [discriminate|].
  destruct (Ascii.eqb a c); [discriminate|]. destruct (py_split c s); discriminate.
Qed.

Lemma py_split_no_sep c s : has_char c s = false -> py_split c s = [s].
Proof.
  induction s as [|a s IH]; simpl; [reflexivity|].
  intros H. apply orb_false_iff in H as [H1 H2]. rewrite H1, (IH H2). reflexivity.
Qed.

Lemma py_split_app c s rest :
  has_char c s = false ->
  py_split c (s +:+ String c rest) = s :: py_split c rest.
Proof.
  induction s as [|a s IH]; simpl.
  - rewrite Ascii.eqb_refl. reflexivity.
  - intros H. apply orb_false_iff in H as [H1 H2]. rewrite H1, (IH H2). reflexivity.
Qed.

(** Splitting the join of texts that do not hold the separator gives them
    back. *)
Lemma py_split_join c (l : list string) :
  l <> [] -> Forall (fun s => has_char c s = false) l ->
  py_split c (py_join (String c "") l) = l.
Proof.
  unfold py_join. induction l as [|s l IH]; intros Hne Hall; [contradiction|].
  apply Forall_cons in Hall as [Hs Hall].
  destruct l as [|s' l].
  - simpl. apply py_split_no_sep, Hs.
  - change (String.concat (String c "") (s :: s' :: l))
      with (s +:+ String c (String.concat (String c "") (s' :: l))).
    rewrite py_split_app by exact Hs. f_equal. apply IH; [discriminate|exact Hall].
Qed.

(** ** Tokens *)

Lemma np_clip_int_range a lo hi : lo <= hi -> lo <= np_clip_int a lo hi <= hi.
Proof. unfold np_clip_int. lia. Qed.

Lemma np_clip_int_id a lo hi : lo <= a <= hi -> np_clip_int a lo hi = a.
Proof. unfold np_clip_int. lia. Qed.

Lemma uv_token_clamp best : uv_token best = uv_token (clamp_cell best).
Proof.
  destruct best as [u v]. unfold uv_token, clamp_cell. simpl fst. simpl snd.
  rewrite !(np_clip_int_id (np_clip_int _ _ _)) by (apply np_clip_int_range; lia).
  reflexivity.
Qed.

(** A property of all 42 tokens is a property of every token. *)
Lemma uv_token_all (P : Z * Z -> Prop) :
  (forall u v, In u [0; 1; 2; 3; 4; 5; 6] -> In v [0; 1; 2; 3; 4; 5] -> P (u, v)) ->
  forall best, P (clamp_cell best).
Proof.
  intros H [u v]. unfold clamp_cell. simpl fst. simpl snd.
  pose proof (np_clip_int_range u 0 6 ltac:(lia)) as Hu.
  pose proof (np_clip_int_range v 0 5 ltac:(lia)) as Hv.
  apply H; simpl; lia.
Qed.

Lemma uv_token_table best :
  uv_token best =
  nth (Z.to_nat (fst (clamp_cell best))) u_strings "" +:+ ":"
    +:+ nth (Z.to_nat (snd (clamp_cell best))) v_strings "".
Proof.
  rewrite uv_token_clamp. apply (uv_token_all (fun c =>
    uv_token c = nth (Z.to_nat (fst c)) u_strings "" +:+ ":" +:+ nth (Z.to_nat (snd c)) v_strings "")).
  intros u v Hu Hv. simpl in Hu, Hv.
  repeat (destruct Hu as [<-|Hu]; [repeat (destruct Hv as [<-|Hv]; [vm_compute; reflexivity|]); contradiction|]).
  contradiction.
Qed.

Lemma uv_token_no_comma best : has_char "," (uv_token best) = false.
Proof.
  rewrite uv_token_clamp. apply (uv_token_all (fun c => has_char "," (uv_token c) = false)).
  intros u v Hu Hv. simpl in Hu, Hv.
  repeat (destruct Hu as [<-|Hu]; [repeat (destruct Hv as [<-|Hv]; [vm_compute; reflexivity|]); contradiction|]).
  contradiction.
Qed.

(** The decoder reads back from a token the clamped cell it was written
    for. *)
Lemma entry_cell_uv_token best : entry_cell (uv_token best) = inr (clamp_cell best).
Proof.
  rewrite uv_token_clamp. apply (uv_token_all (fun c => entry_cell (uv_token c) = inr c)).
  intros u v Hu Hv. simpl in Hu, Hv.
  repeat (destruct Hu as [<-|Hu]; [repeat (destruct Hv as [<-|Hv]; [vm_compute; reflexivity|]); contradiction|]).
  contradiction.
Qed.

Lemma uv_token_well_formed best : well_formed_entry (uv_token best) = true.
Proof.
  rewrite uv_token_clamp. apply (uv_token_all (fun c => well_formed_entry (uv_token c) = true)).
  intros u v Hu Hv. simpl in Hu, Hv.
  repeat (destruct Hu as [<-|Hu]; [repeat (destruct Hv as [<-|Hv]; [vm_compute; reflexivity|]); contradiction|]).
  contradiction.
Qed.

(** ** The loops of the encoder *)

Lemma fold_left_snoc {A B} (f : A -> B) (l : list A) (acc : list B) :
  fold_left (fun acc x => (acc ++ [f x])%list) l acc = (acc ++ map f l)%list.
Proof.
  revert acc. induction l as [|x l IH]; intros acc; simpl.
  - rewrite app_nil_r. reflexivity.
  - rewrite IH, <- app_assoc. reflexivity.
Qed.

Lemma fold_left_blocks {A B} (g : A -> list B) (l : list A) (acc : list B) :
  fold_left (fun acc x => (acc ++ g x)%list) l acc = (acc ++ flat_map g l)%list.
Proof.
  revert acc. induction l as [|x l IH]; intros acc; simpl.
  - rewrite app_nil_r. reflexivity.
  - rewrite IH, <- app_assoc. reflexivity.
Qed.

Lemma fold_left_ext {A B} (f g : A -> B -> A) (l : list B) (a : A) :
  (forall a b, f a b = g a b) -> fold_left f l a = fold_left g l a.
Proof. intros H. revert a. induction l as [|x l IH]; intros a; simpl; [reflexivity|]. rewrite H. apply IH. Qed.

Section EncoderLoops.
Context {cv : OpenCV}.

Lemma serialize_pixels_tokens src tex alg w h :
  serialize_pixels src tex alg w h = grid_tokens src tex alg w h.
Proof.
  unfold serialize_pixels, grid_tokens.
  rewrite (fold_left_ext _ (fun acc i => (acc ++ map (fun j => uv_token (alg (pixel_at src j i) tex)) (rev (seq 0 h)))%list)).
  - rewrite fold_left_blocks. reflexivity.
  - intros a i. apply fold_left_snoc.
Qed.

End EncoderLoops.

Lemma flat_map_const_length {A B} (f : A -> list B) (n : nat) (l : list A) :
  (forall x, length (f x) = n) -> length (flat_map f l) = (length l * n)%nat.
Proof.
  intros H. induction l as [|x l IH]; simpl; [reflexivity|].
  rewrite length_app, H, IH. reflexivity.
Qed.

Lemma flat_map_lookup {A B} (f : A -> list B) (n : nat) (l : list A) i m x :
  (forall x, length (f x) = n) -> (m < n)%nat -> l !! i = Some x ->
  flat_map f l !! (n * i + m)%nat = f x !! m.
Proof.
  intros H Hm. revert i. induction l as [|y l IH]; intros i Hi; [discriminate|].
  simpl flat_map. destruct i as [|i].
  - inversion Hi; subst. rewrite lookup_app_l by (rewrite H; lia).
    f_equal. lia.
  - rewrite lookup_app_r by (rewrite H; lia). rewrite H.
    replace (n * S i + m - n)%nat with (n * i + m)%nat by lia. apply IH, Hi.
Qed.

Lemma rev_reverse {A} (l : list A) : rev l = reverse l.
Proof. unfold reverse. apply rev_alt. Qed.

Lemma rev_seq_lookup h m : (m < h)%nat -> rev (seq 0 h) !! m = Some (h - 1 - m)%nat.
Proof.
  intros Hm. rewrite rev_reverse, reverse_lookup by (rewrite length_seq; lia).
  rewrite length_seq, lookup_seq_lt by lia. f_equal. lia.
Qed.

Lemma grid_tokens_length src tex alg w h :
  length (grid_tokens src tex alg w h) = (w * h)%nat.
Proof.
  unfold grid_tokens. rewrite (flat_map_const_length _ h).
  - rewrite length_seq. reflexivity.
  - intros i. rewrite length_map, length_rev, length_seq. reflexivity.
Qed.

(** The entry at position [h * i + m] is the token of the pixel in column
    [i] and row [h - 1 - m]. *)
Lemma grid_tokens_lookup src tex alg w h i m :
  (i < w)%nat -> (m < h)%nat ->
  grid_tokens src tex alg w h !! (h * i + m)%nat
  = Some (uv_token (alg (pixel_at src (h - 1 - m) i) tex)).
Proof.
  intros Hi Hm. unfold grid_tokens.
  rewrite (flat_map_lookup _ h _ i m i).
  - rewrite list_lookup_fmap, rev_seq_lookup by exact Hm. reflexivity.
  - intros x. rewrite length_map, length_rev, length_seq. reflexivity.
  - exact Hm.
  - rewrite lookup_seq_lt by exact Hi. reflexivity.
Qed.

Lemma grid_tokens_no_comma src tex alg w h :
  Forall (fun s => has_char "," s = false) (grid_tokens src tex alg w h).
Proof.
  unfold grid_tokens. apply Forall_flat_map, Forall_forall. intros i _.
  apply Forall_map, Forall_forall. intros j _. apply uv_token_no_comma.
Qed.


(* ===================================================================== *)
(** * The decoder                                                         *)
(* ===================================================================== *)

(** ** Applying a function that may raise along a list *)





(** ** The two loops are one loop over the positions *)

Lemma decode_flat_done pairs tex ps num img :
  (length pairs <= num)%nat -> decode_flat pairs tex ps (num, img) = inr (num, img).
Proof.
  intros H. induction ps as [|[j i] ps IH]; simpl; [reflexivity|].
  replace (length pairs <=? num)%nat with true by (symmetry; apply Nat.leb_le, H). exact IH.
Qed.

Lemma decode_column_flat pairs tex i js st :
  decode_column pairs tex i js st = decode_flat pairs tex (map (fun j => (j, i)) js) st.
Proof.
  revert st. induction js as [|j js IH]; intros [num img]; simpl; [reflexivity|].
  destruct (length pairs <=? num)%nat eqn:E.
  - symmetry. apply decode_flat_done. apply Nat.leb_le, E.
  - destruct (entry_cell _) as [e|[u v]]; simpl; [reflexivity|]. apply IH.
Qed.

Lemma decode_flat_app pairs tex ps1 ps2 st :
  decode_flat pairs tex (ps1 ++ ps2) st
  = let! st' := decode_flat pairs tex ps1 st in decode_flat pairs tex ps2 st'.
Proof.
  revert st. induction ps1 as [|[j i] ps1 IH]; intros [num img]; simpl; [reflexivity|].
  destruct (length pairs <=? num)%nat; [apply IH|].
  destruct (entry_cell _) as [e|c]; simpl; [reflexivity|]. apply IH.
Qed.

Lemma decode_columns_flat pairs tex height columns st :
  decode_columns pairs tex height columns st
  = decode_flat pairs tex (flat_map (fun i => map (fun j => (j, i)) (seq 0 height)) columns) st.
Proof.
  revert st. induction columns as [|i columns IH]; intros st; simpl; [reflexivity|].
  rewrite decode_flat_app, decode_column_flat.
  destruct (decode_flat _ _ _ st); simpl; [reflexivity|]. apply IH.
Qed.

Lemma zip_nil_r {A B} (l : list A) : zip l (@nil B) = [].
Proof. destruct l; reflexivity. Qed.

(** The loop reads the entries from [num] on, one per position, and stops
    at the first that raises. *)
Lemma decode_flat_closed pairs tex ps : forall num img,
  decode_flat pairs tex ps (num, img)
  = let! cells := mapM_exn entry_cell (take (length ps) (drop num pairs)) in
    inr ((num + length cells)%nat, fold_left (paint tex) (zip ps cells) img).
Proof.
  induction ps as [|[j i] ps IH]; intros num img.
  - simpl. rewrite Nat.add_0_r. reflexivity.
  - simpl decode_flat. destruct (length pairs <=? num)%nat eqn:E.
    + apply Nat.leb_le in E. rewrite IH, drop_ge by exact E.
      rewrite !take_nil. simpl. rewrite zip_nil_r. reflexivity.
    + apply Nat.leb_gt in E.
      destruct (lookup_lt_is_Some_2 pairs num E) as [e He].
      rewrite He. simpl default.
      rewrite (drop_S _ _ _ He). simpl length. simpl take. simpl mapM_exn.
      destruct (entry_cell e) as [err|c]; simpl; [reflexivity|].
      rewrite IH. destruct (mapM_exn _ _) as [err|cells]; simpl; [reflexivity|].
      do 2 f_equal. lia.
Qed.

Lemma positions_length w h : length (positions w h) = (w * h)%nat.
Proof.
  unfold positions. rewrite (flat_map_const_length _ h).
  - rewrite length_seq. reflexivity.
  - intros i. rewrite length_map, length_seq. reflexivity.
Qed.

Lemma decode_columns_closed pairs tex :
  decode_columns pairs tex 66 (seq 0 100) (0%nat, np_zeros 66 100)
  = let! cells := mapM_exn entry_cell (take 6600 pairs) in
    inr (length cells, painted tex cells).
Proof.
  rewrite decode_columns_flat.
  change (flat_map (fun i => map (fun j => (j, i)) (seq 0 66)) (seq 0 100)) with (positions 100 66).
  rewrite decode_flat_closed, positions_length. reflexivity.
Qed.

(** ** Images *)

Lemma np_zeros_shape h w : has_shape h w (np_zeros h w).
Proof.
  unfold has_shape, np_zeros. split; [apply length_replicate|].
  apply Forall_lookup_2. intros k row Hrow.
  apply lookup_replicate in Hrow as [-> _]. apply length_replicate.
Qed.

Lemma set_pixel_shape h w img j i c : has_shape h w img -> has_shape h w (set_pixel img j i c).
Proof.
  unfold has_shape, set_pixel. intros [Hl Hr]. split; [rewrite length_alter; exact Hl|].
  apply Forall_lookup_2. intros k row Hk.
  destruct (decide (j = k)) as [->|Hne].
  - rewrite list_lookup_alter_eq in Hk. destruct (img !! k) as [row0|] eqn:E; [|discriminate].
    inversion Hk; subst. rewrite length_insert. apply (Forall_lookup_1 _ _ _ _ Hr E).
  - rewrite list_lookup_alter_ne in Hk by exact Hne.
    apply (Forall_lookup_1 _ _ _ _ Hr Hk).
Qed.

Lemma has_shape_row h w img j row : has_shape h w img -> img !! j = Some row -> length row = w.
Proof.
  intros [_ Hr] Hj. apply (Forall_lookup_1 _ _ _ _ Hr Hj).
Qed.

Lemma pixel_at_set_same h w img j i c :
  has_shape h w img -> (j < h)%nat -> (i < w)%nat -> pixel_at (set_pixel img j i c) j i = c.
Proof.
  intros Hs Hj Hi. unfold pixel_at, set_pixel. rewrite list_lookup_alter_eq.
  destruct Hs as [Hl Hr].
  destruct (lookup_lt_is_Some_2 img j ltac:(lia)) as [row Hrow]. rewrite Hrow. simpl.
  rewrite list_lookup_insert_eq; [reflexivity|].
  rewrite (has_shape_row h w img j row); [exact Hi|split; assumption|exact Hrow].
Qed.

Lemma pixel_at_set_other img j i c j' i' :
  (j, i) <> (j', i') -> pixel_at (set_pixel img j i c) j' i' = pixel_at img j' i'.
Proof.
  intros Hne. unfold pixel_at, set_pixel.
  destruct (decide (j = j')) as [->|Hj].
  - rewrite list_lookup_alter_eq. destruct (img !! j') as [row|]; simpl; [|reflexivity].
    rewrite list_lookup_insert_ne; [reflexivity|congruence].
  - rewrite list_lookup_alter_ne by exact Hj. reflexivity.
Qed.

Lemma paint_shape h w tex img pc : has_shape h w img -> has_shape h w (paint tex img pc).
Proof. destruct pc as [[j i] [u v]]. apply set_pixel_shape. Qed.

Lemma fold_paint_shape h w tex l : forall img,
  has_shape h w img -> has_shape h w (fold_left (paint tex) l img).
Proof. induction l as [|pc l IH]; intros img H; simpl; [exact H|]. apply IH, paint_shape, H. Qed.

(** Painting other positions leaves a pixel as it was. *)
Lemma fold_paint_other tex ps j i : forall cs img,
  (j, i) ∉ ps ->
  pixel_at (fold_left (paint tex) (zip ps cs) img) j i = pixel_at img j i.
Proof.
  induction ps as [|[j0 i0] ps IH]; intros cs img Hn; [reflexivity|].
  destruct cs as [|[u v] cs]; [reflexivity|].
  simpl. rewrite IH by (intros H; apply Hn; right; exact H).
  apply pixel_at_set_other. intros H. apply Hn. rewrite H. left.
Qed.

(** The pixel at the [k]-th position is the colour of the [k]-th cell, or
    what it was when the cells run out before. *)
Lemma fold_paint_pixel h w tex ps : forall cs img k j i,
  has_shape h w img -> NoDup ps ->
  (forall p, p ∈ ps -> (fst p < h)%nat /\ (snd p < w)%nat) ->
  ps !! k = Some (j, i) ->
  pixel_at (fold_left (paint tex) (zip ps cs) img) j i
  = match cs !! k with
    | Some c => swap_rb (pixel_at tex (Z.to_nat (snd c)) (Z.to_nat (fst c)))
    | None => pixel_at img j i
    end.
Proof.
  induction ps as [|[j0 i0] ps IH]; intros cs img k j i Hs Hnd Hb Hk; [discriminate|].
  apply NoDup_cons in Hnd as [Hn0 Hnd].
  destruct cs as [|[u v] cs].
  - destruct k; reflexivity.
  - destruct k as [|k].
    + inversion Hk; subst. simpl. rewrite fold_paint_other by exact Hn0.
      apply (pixel_at_set_same h w); [exact Hs|apply (Hb (j, i)); left..].
    + simpl in Hk. simpl.
      rewrite (IH cs _ k j i); auto.
      * destruct (cs !! k); [reflexivity|].
        apply pixel_at_set_other. intros H. inversion H; subst.
        apply Hn0. eapply list_elem_of_lookup_2, Hk.
      * apply set_pixel_shape, Hs.
      * intros p Hp. apply Hb. right. exact Hp.
Qed.

Lemma positions_lookup w h i j :
  (i < w)%nat -> (j < h)%nat -> positions w h !! (h * i + j)%nat = Some (j, i).
Proof.
  intros Hi Hj. unfold positions. rewrite (flat_map_lookup _ h _ i j i).
  - rewrite list_lookup_fmap, lookup_seq_lt by exact Hj. reflexivity.
  - intros x. rewrite length_map, length_seq. reflexivity.
  - exact Hj.
  - rewrite lookup_seq_lt by exact Hi. reflexivity.
Qed.

Lemma positions_lookup_inv w h k j i :
  positions w h !! k = Some (j, i) -> (i < w)%nat /\ (j < h)%nat /\ k = (h * i + j)%nat.
Proof.
  intros Hk. pose proof (lookup_lt_Some _ _ _ Hk) as Hlt. rewrite positions_length in Hlt.
  assert (Hh : (0 < h)%nat) by (destruct h; [lia|lia]).
  assert (Hi : (k / h < w)%nat) by (apply Nat.Div0.div_lt_upper_bound; lia).
  assert (Hj : (k mod h < h)%nat) by (apply Nat.mod_upper_bound; lia).
  pose proof (positions_lookup w h (k / h) (k mod h) Hi Hj) as H.
  rewrite <- Nat.div_mod_eq in H. rewrite H in Hk. inversion Hk; subst.
  repeat split; auto. apply Nat.div_mod_eq.
Qed.

Lemma positions_NoDup w h : NoDup (positions w h).
Proof.
  apply NoDup_alt. intros k1 k2 [j i] H1 H2.
  apply positions_lookup_inv in H1 as (_ & _ & ->), H2 as (_ & _ & ->). reflexivity.
Qed.

Lemma painted_shape tex cells : has_shape 66 100 (painted tex cells).
Proof. apply fold_paint_shape, np_zeros_shape. Qed.

Lemma pixel_at_np_zeros h w j i : pixel_at (np_zeros h w) j i = black.
Proof.
  unfold pixel_at, np_zeros. destruct (replicate h _ !! j) as [row|] eqn:E; [|reflexivity].
  apply lookup_replicate in E as [-> _].
  destruct (replicate w black !! i) as [c|] eqn:F; [|reflexivity].
  apply lookup_replicate in F as [-> _]. reflexivity.
Qed.

(** Before the flip, the pixel in row [j] and column [i] holds the colour
    of the cell of entry [66 * i + j], or black when the stream is
    shorter. *)
Lemma painted_pixel tex cells j i :
  (j < 66)%nat -> (i < 100)%nat ->
  pixel_at (painted tex cells) j i
  = match cells !! (66 * i + j)%nat with
    | Some c => swap_rb (pixel_at tex (Z.to_nat (snd c)) (Z.to_nat (fst c)))
    | None => black
    end.
Proof.
  intros Hj Hi. unfold painted.
  rewrite (fold_paint_pixel 66 100 tex _ cells _ (66 * i + j)%nat j i).
  - rewrite pixel_at_np_zeros. reflexivity.
  - apply np_zeros_shape.
  - apply positions_NoDup.
  - intros [j' i'] Hp. apply list_elem_of_lookup in Hp as [k Hk].
    apply positions_lookup_inv in Hk. simpl. lia.
  - apply positions_lookup; assumption.
Qed.

Lemma cv_flip0_shape h w img : has_shape h w img -> has_shape h w (cv_flip0 img).
Proof.
  unfold has_shape, cv_flip0. intros [Hl Hr]. split; [rewrite length_rev; exact Hl|].
  apply Forall_rev, Hr.
Qed.

Lemma pixel_at_flip h img j i :
  length img = h -> (j < h)%nat -> pixel_at (cv_flip0 img) j i = pixel_at img (h - 1 - j) i.
Proof.
  intros Hl Hj. unfold pixel_at, cv_flip0.
  rewrite rev_reverse, reverse_lookup by lia. rewrite Hl.
  replace (h - S j)%nat with (h - 1 - j)%nat by lia. reflexivity.
Qed.

Lemma has_shape_shape h w img : has_shape h w img -> (0 < h)%nat -> shape img = (h, w).
Proof.
  intros [Hl Hr] Hh. unfold shape. destruct img as [|row img]; [simpl in Hl; lia|].
  apply Forall_cons in Hr as [Hrow _]. simpl in Hl. simpl. congruence.
Qed.

(** ** The decoder in closed form *)

Section DecoderClosed.
Context {cv : OpenCV}.

Lemma create_uv_preview_image_closed serialized_data texture output_path w :
  create_uv_preview_image serialized_data texture output_path w
  = match mapM_exn entry_cell (take 6600 (py_split "," serialized_data)) with
    | inl e => (inl e, w)
    | inr cells =>
        let preview_img :=
          cv_flip0 (painted (cv_resize (cvtColor_BGR2RGB texture) 7 6) cells) in
        (inr preview_img,
         mkWorld (<[output_path := preview_img]> (files w))
                 (stdout w ++ ["Preview saved: " +:+ output_path])%list)
    end.
Proof.
  unfold create_uv_preview_image, bind, lift.
  rewrite decode_columns_closed.
  destruct (mapM_exn entry_cell _) as [e|cells]; reflexivity.
Qed.

End DecoderClosed.

(** After the flip, the pixel in row [j] and column [i] holds the colour
    of the cell of entry [66 * i + (65 - j)]. *)
Lemma preview_pixel tex cells j i :
  (j < 66)%nat -> (i < 100)%nat ->
  pixel_at (cv_flip0 (painted tex cells)) j i
  = match cells !! (66 * i + (65 - j))%nat with
    | Some c => swap_rb (pixel_at tex (Z.to_nat (snd c)) (Z.to_nat (fst c)))
    | None => black
    end.
Proof.
  intros Hj Hi. rewrite (pixel_at_flip 66) by (try apply painted_shape; lia).
  rewrite painted_pixel by lia. replace (66 - 1 - j)%nat with (65 - j)%nat by lia. reflexivity.
Qed.

Lemma preview_shape tex cells : shape (cv_flip0 (painted tex cells)) = (66%nat, 100%nat).
Proof. apply has_shape_shape; [apply cv_flip0_shape, painted_shape|lia]. Qed.


(* ===================================================================== *)
(** * The encoder and the decoder together                                *)
(* ===================================================================== *)

Lemma n6600 : 6600%nat = (100 * 66)%nat.
Proof. reflexivity. Qed.

Lemma flat_map_map_comm {A B C} (g : B -> C) (h : A -> list B) (l : list A) :
  flat_map (fun i => map g (h i)) l = map g (flat_map h l).
Proof. induction l as [|x l IH]; simpl; [reflexivity|]. rewrite map_app, IH. reflexivity. Qed.

Lemma flat_map_ext_in {A B} (f g : A -> list B) (l : list A) :
  (forall a, In a l -> f a = g a) -> flat_map f l = flat_map g l.
Proof.
  induction l as [|x l IH]; intros H; simpl; [reflexivity|].
  rewrite (H x) by (left; reflexivity). rewrite IH; [reflexivity|].
  intros a Ha. apply H. right. exact Ha.
Qed.

Lemma grid_tokens_cells src tex f w h :
  grid_tokens src tex f w h = map uv_token (grid_cells src tex f w h).
Proof.
  unfold grid_tokens, grid_cells. rewrite <- flat_map_map_comm.
  apply flat_map_ext_in. intros i _. rewrite map_map. reflexivity.
Qed.

Lemma grid_cells_lookup src tex f w h i m :
  (i < w)%nat -> (m < h)%nat ->
  grid_cells src tex f w h !! (h * i + m)%nat = Some (f (pixel_at src (h - 1 - m) i) tex).
Proof.
  intros Hi Hm. unfold grid_cells.
  rewrite (flat_map_lookup _ h _ i m i).
  - rewrite list_lookup_fmap, rev_seq_lookup by exact Hm. reflexivity.
  - intros x. rewrite length_map, length_rev, length_seq. reflexivity.
  - exact Hm.
  - rewrite lookup_seq_lt by exact Hi. reflexivity.
Qed.

(** Two grids whose pixels get the same token give the same tokens. *)
Lemma grid_tokens_ext s1 s2 tex f w h :
  (forall i j, (i < w)%nat -> (j < h)%nat ->
     uv_token (f (pixel_at s1 j i) tex) = uv_token (f (pixel_at s2 j i) tex)) ->
  grid_tokens s1 tex f w h = grid_tokens s2 tex f w h.
Proof.
  intros H. unfold grid_tokens. apply flat_map_ext_in. intros i Hi.
  apply in_seq in Hi. apply map_ext_in. intros j Hj.
  apply in_rev, in_seq in Hj. apply H; lia.
Qed.

Lemma mapM_entry_tokens bests :
  mapM_exn entry_cell (map uv_token bests) = inr (map clamp_cell bests).
Proof.
  induction bests as [|b bests IH]; simpl; [reflexivity|].
  rewrite entry_cell_uv_token. simpl. rewrite IH. reflexivity.
Qed.

Lemma py_split_parts_no_sep c s : Forall (fun p => has_char c p = false) (py_split c s).
Proof.
  induction s as [|a s IH]; simpl; [repeat constructor|].
  destruct (Ascii.eqb a c) eqn:E; [constructor; [reflexivity|exact IH]|].
  destruct (py_split c s) as [|p ps]; [repeat constructor; simpl; rewrite E; reflexivity|].
  apply Forall_cons in IH as [Hp Hps]. constructor; [|exact Hps].
  simpl. rewrite E, Hp. reflexivity.
Qed.

Section Codec.
Context {cv : OpenCV}.

Lemma save_resized_texture_closed texture output_path w :
  save_resized_texture texture output_path w
  = (inr (enlarge_palette (palette_of texture)),
     mkWorld (<[output_path := enlarge_palette (palette_of texture)]> (files w)) (stdout w)).
Proof. reflexivity. Qed.

(** The encoder, whatever the shape of the source image. *)
Lemma serialize_image_to_uv_closed source_image texture f w :
  serialize_image_to_uv source_image texture f w
  = let source' :=
      if negb (snd (shape source_image) =? 100)%nat || negb (fst (shape source_image) =? 66)%nat
      then cv_resize source_image 100 66 else source_image in
    (inr (py_join "," (grid_tokens source' (palette_of texture) f
                         (snd (shape source')) (fst (shape source')))),
     mkWorld (<["resized_texture.png" := enlarge_palette (palette_of texture)]> (files w))
             (stdout w)).
Proof.
  unfold serialize_image_to_uv, bind, ret. rewrite save_resized_texture_closed.
  cbv zeta. rewrite serialize_pixels_tokens. reflexivity.
Qed.

(** The encoder on a grid of 66 rows and 100 columns. *)
Lemma serialize_image_to_uv_grid grid texture f w :
  shape grid = (66%nat, 100%nat) ->
  serialize_image_to_uv grid texture f w
  = (inr (py_join "," (grid_tokens grid (palette_of texture) f 100 66)),
     mkWorld (<["resized_texture.png" := enlarge_palette (palette_of texture)]> (files w))
             (stdout w)).
Proof.
  intros Hs. rewrite serialize_image_to_uv_closed. cbv zeta. rewrite Hs.
  change (negb ((66%nat, 100%nat).2 =? 100)%nat || negb ((66%nat, 100%nat).1 =? 66)%nat)
    with false.
  cbv iota. rewrite Hs. reflexivity.
Qed.

Lemma grid_tokens_split grid pal f :
  py_split "," (py_join "," (grid_tokens grid pal f 100 66)) = grid_tokens grid pal f 100 66.
Proof.
  apply py_split_join; [|apply grid_tokens_no_comma].
  intros H. apply (f_equal length) in H. rewrite grid_tokens_length in H. discriminate.
Qed.

(** Decoding what the encoder wrote reads back every clamped cell. *)
Lemma decode_encoded grid pal f :
  mapM_exn entry_cell (take 6600 (py_split "," (py_join "," (grid_tokens grid pal f 100 66))))
  = inr (map clamp_cell (grid_cells grid pal f 100 66)).
Proof.
  rewrite grid_tokens_split, take_ge by (rewrite grid_tokens_length, n6600; lia).
  rewrite grid_tokens_cells. apply mapM_entry_tokens.
Qed.

Lemma swap_rb_involutive c : swap_rb (swap_rb c) = c.
Proof. destruct c as [[a b] d]. reflexivity. Qed.

(** A function of the family returns a cell of the grid, and returns it
    again for that cell's colour. *)
Lemma family_requantize name f :
  hue_in_range cv -> get_algorithm_function name = Some f ->
  forall p pal,
    clamp_cell (f p pal) = f p pal
    /\ f (swap_rb (pixel_at pal (Z.to_nat (snd (f p pal))) (Z.to_nat (fst (f p pal))))) pal
       = f p pal.
Proof.
  intros Hue Hf p pal.
  destruct (family_is_scan name f Hf) as (D & Hscan & Hnn & Hgood).
  specialize (Hgood Hue). rewrite !Hscan. split.
  - destruct (scan_earliest_min (D (swap_rb p)) pal (Hnn _)) as (k & [v u] & Hk & -> & _).
    apply scan_order_bounds in Hk. simpl in Hk.
    unfold clamp_cell, cell_index. simpl fst. simpl snd.
    rewrite !np_clip_int_id by lia. reflexivity.
  - rewrite swap_rb_involutive. apply (scan_idempotent D pal Hgood).
Qed.

Lemma family_in_grid name f :
  get_algorithm_function name = Some f ->
  forall p pal, 0 <= fst (f p pal) <= 6 /\ 0 <= snd (f p pal) <= 5.
Proof.
  intros Hf p pal.
  destruct (family_is_scan name f Hf) as (D & Hscan & Hnn & _). rewrite Hscan.
  destruct (scan_earliest_min (D (swap_rb p)) pal (Hnn _)) as (k & [v u] & Hk & -> & _).
  apply scan_order_bounds in Hk. simpl in Hk. unfold cell_index. simpl. lia.
Qed.

(** C1.  Round trip: for every grid of 66 rows and 100 columns, every
    texture (hence palette) and every function of the family, encoding
    the grid, decoding the stream with the same texture and encoding the
    preview again gives the first stream character for character.  The
    hue of the HSV conversion, which is OpenCV's, is taken to lie within
    0..180. *)
Theorem encode_decode_encode name f grid texture path w :
  hue_in_range cv ->
  get_algorithm_function name = Some f ->
  shape grid = (66%nat, 100%nat) ->
  exists stream w1 preview w2 w3,
    serialize_image_to_uv grid texture f w = (inr stream, w1)
    /\ create_uv_preview_image stream texture path w1 = (inr preview, w2)
    /\ serialize_image_to_uv preview texture f w2 = (inr stream, w3).
Proof.
  intros Hue Hf Hs.
  set (pal := palette_of texture).
  set (stream := py_join "," (grid_tokens grid pal f 100 66)).
  set (w1 := mkWorld (<["resized_texture.png" := enlarge_palette pal]> (files w)) (stdout w)).
  set (preview := cv_flip0 (painted pal (map clamp_cell (grid_cells grid pal f 100 66)))).
  set (w2 := mkWorld (<[path := preview]> (files w1))
                     (stdout w1 ++ ["Preview saved: " +:+ path])%list).
  set (w3 := mkWorld (<["resized_texture.png" := enlarge_palette pal]> (files w2)) (stdout w2)).
  exists stream, w1, preview, w2, w3.
  split; [apply serialize_image_to_uv_grid, Hs|]. split.
  - rewrite create_uv_preview_image_closed. fold pal. unfold stream.
    rewrite decode_encoded. reflexivity.
  - rewrite serialize_image_to_uv_grid by apply preview_shape. fold pal.
    assert (Ht : grid_tokens preview pal f 100 66 = grid_tokens grid pal f 100 66);
      [|rewrite Ht; reflexivity].
    apply grid_tokens_ext. intros i j Hi Hj. unfold preview.
    rewrite preview_pixel by assumption.
    rewrite list_lookup_fmap.
    rewrite (grid_cells_lookup grid pal f 100 66 i (65 - j)) by lia.
    cbn [fmap option_fmap option_map].
    replace (66 - 1 - (65 - j))%nat with j by lia.
    destruct (family_requantize name f Hue Hf (pixel_at grid j i) pal) as [Hc Hq].
    rewrite Hc, Hq. reflexivity.
Qed.

(** C3.  For every grid of 66 rows and 100 columns, texture and
    algorithm, the stream has exactly 6600 comma-separated entries, and
    the entry at position [66 * i + m] is the token of the pixel of
    column [i] and row [65 - m]: columns from 0 to 99, and in each
    column the rows from 65 down to 0. *)
Theorem encoder_traversal grid texture f w :
  shape grid = (66%nat, 100%nat) ->
  exists stream w',
    serialize_image_to_uv grid texture f w = (inr stream, w')
    /\ length (py_split "," stream) = 6600%nat
    /\ forall i m, (i < 100)%nat -> (m < 66)%nat ->
         py_split "," stream !! (66 * i + m)%nat
         = Some (uv_token (f (pixel_at grid (65 - m) i) (palette_of texture))).
Proof.
  intros Hs.
  exists (py_join "," (grid_tokens grid (palette_of texture) f 100 66)),
         (mkWorld (<["resized_texture.png" := enlarge_palette (palette_of texture)]> (files w))
                  (stdout w)).
  split; [apply serialize_image_to_uv_grid, Hs|]. rewrite grid_tokens_split. split.
  - rewrite grid_tokens_length. reflexivity.
  - intros i m Hi Hm. rewrite grid_tokens_lookup by assumption. reflexivity.
Qed.

(** C4.  Every entry is the token of its pixel's cell [(u, v)]:
    [clamp(u/6, 0.01, 0.99)], a colon, [clamp(1 - v/5, 0.01, 0.99)],
    each written with two decimals, so one of seven texts for [u] and
    one of six for [v].  Cell (6,5) gives 0.99 and 0.01, cell (0,0)
    gives "0.01:0.99", and a pure red pixel quantized with [rgb] against
    the palette whose cell (0,0) is pure red and whose other cells are
    black gives "0.01:0.99". *)
Theorem encoder_token grid texture f w :
  shape grid = (66%nat, 100%nat) ->
  (exists stream w',
     serialize_image_to_uv grid texture f w = (inr stream, w')
     /\ forall i m, (i < 100)%nat -> (m < 66)%nat ->
          let best := f (pixel_at grid (65 - m) i) (palette_of texture) in
          py_split "," stream !! (66 * i + m)%nat = Some (token_formula best)
          /\ token_formula best
             = nth (Z.to_nat (np_clip_int (fst best) 0 6)) u_strings "" +:+ ":"
                 +:+ nth (Z.to_nat (np_clip_int (snd best) 0 5)) v_strings "")
  /\ token_formula (6, 5) = "0.99:0.01"
  /\ token_formula (0, 0) = "0.01:0.99"
  /\ find_closest_colour_rgb (x00, x00, xff) red_palette = (0, 0)
  /\ uv_token (find_closest_colour_rgb (x00, x00, xff) red_palette) = "0.01:0.99".
Proof.
  intros Hs. split; [|repeat split; vm_compute; reflexivity].
  exists (py_join "," (grid_tokens grid (palette_of texture) f 100 66)),
         (mkWorld (<["resized_texture.png" := enlarge_palette (palette_of texture)]> (files w))
                  (stdout w)).
  split; [apply serialize_image_to_uv_grid, Hs|]. rewrite grid_tokens_split.
  intros i m Hi Hm best. subst best. rewrite grid_tokens_lookup by assumption.
  replace (66 - 1 - m)%nat with (65 - m)%nat by lia.
  set (best := f _ _).
  assert (Ht : token_formula best = uv_token best) by (destruct best; reflexivity).
  rewrite Ht. split; [reflexivity|]. apply uv_token_table.
Qed.

(** Each function of [ALGORITHMS] is the scan with the distance its own
    loop body computes, and that distance is never a NaN. *)
Lemma family_table name f D :
  In (name, f, D)
     [("perceptual", find_closest_colour_perceptual, perceptual_dist);
      ("rgb", find_closest_colour_rgb, rgb_dist);
      ("hsv", find_closest_colour_hsv, hsv_dist);
      ("lab", find_closest_colour_lab, lab_dist);
      ("weighted", find_closest_colour_weighted, weighted_dist);
      ("simple", find_closest_colour_simple, simple_dist);
      ("perceptual_hsv", find_closest_colour_perceptual_hsv, perceptual_hsv_dist)] ->
  get_algorithm_function name = Some f
  /\ (forall pixel tex, f pixel tex = scan_palette (D (swap_rb pixel)) tex)
  /\ (forall p t, fnonnan (D p t) = true).
Proof.
  intros Hin. cbn [In] in Hin.
  destruct Hin as [E|[E|[E|[E|[E|[E|[E|[]]]]]]]]; injection E as <- <- <-;
    (split; [reflexivity|split; [reflexivity|]]).
  - apply good_metric_nonnan, perceptual_dist_good.
  - apply good_metric_nonnan, rgb_dist_good.
  - apply hsv_dist_nonnan.
  - apply good_metric_nonnan, lab_dist_good.
  - apply good_metric_nonnan, weighted_dist_good.
  - apply good_metric_nonnan, simple_dist_good.
  - apply perceptual_hsv_dist_nonnan.
Qed.

(** C5.  The seven functions of [ALGORITHMS] are listed with the
    distance each computes for a palette cell.  For every pixel and
    palette, each function is the fold of one step, taken with its own
    distance to the pixel, over the 42 cells in the order [v = 0..5]
    outer, [u = 0..6] inner; a step replaces the best exactly when the
    cell's distance is strictly smaller; the result is a cell no other
    cell beats and that beats every cell scanned before it; and cell
    (0,0) is returned when all distances are equal. *)
Theorem quantizer_scan name f D pixel texture_resized :
  In (name, f, D)
     [("perceptual", find_closest_colour_perceptual, perceptual_dist);
      ("rgb", find_closest_colour_rgb, rgb_dist);
      ("hsv", find_closest_colour_hsv, hsv_dist);
      ("lab", find_closest_colour_lab, lab_dist);
      ("weighted", find_closest_colour_weighted, weighted_dist);
      ("simple", find_closest_colour_simple, simple_dist);
      ("perceptual_hsv", find_closest_colour_perceptual_hsv, perceptual_hsv_dist)] ->
  let dist := D (swap_rb pixel) in
  get_algorithm_function name = Some f
  /\ get_available_algorithms
     = ["perceptual"; "rgb"; "hsv"; "lab"; "weighted"; "simple"; "perceptual_hsv"]
  /\ f pixel texture_resized
     = snd (fold_left (scan_step dist texture_resized) scan_order scan_init)
  /\ length scan_order = 42%nat
  /\ (forall v u, (v < 6)%nat -> (u < 7)%nat -> scan_order !! (7 * v + u)%nat = Some (v, u))
  /\ (forall st c,
        scan_step dist texture_resized st c
        = if PrimFloat.ltb (cell_dist dist texture_resized c) (fst st)
          then (cell_dist dist texture_resized c, cell_index c) else st)
  /\ (exists k ck,
        scan_order !! k = Some ck
        /\ f pixel texture_resized = cell_index ck
        /\ (forall c, c ∈ scan_order ->
              PrimFloat.ltb (cell_dist dist texture_resized c)
                            (cell_dist dist texture_resized ck) = false)
        /\ (forall j c, (j < k)%nat -> scan_order !! j = Some c ->
              PrimFloat.ltb (cell_dist dist texture_resized ck)
                            (cell_dist dist texture_resized c) = true))
  /\ ((forall c c', c ∈ scan_order -> c' ∈ scan_order ->
         cell_dist dist texture_resized c = cell_dist dist texture_resized c')
      -> f pixel texture_resized = (0, 0)).
Proof.
  intros Hin dist. destruct (family_table name f D Hin) as (Hf & Hscan & Hnn).
  split; [exact Hf|]. split; [reflexivity|]. rewrite Hscan. fold dist.
  split; [apply scan_palette_fold|]. split; [reflexivity|].
  split; [apply scan_order_lookup|]. split; [intros; apply scan_step_eq|].
  destruct (scan_earliest_min dist texture_resized (Hnn _))
    as (k & ck & Hk & Hr & Hmin & Hfirst).
  split; [exists k, ck; auto|].
  intros Heq. rewrite Hr. destruct k as [|k]; [inversion Hk; reflexivity|].
  pose proof (Hfirst 0%nat (0%nat, 0%nat) ltac:(lia) eq_refl) as F.
  rewrite (Heq ck (0%nat, 0%nat)) in F.
  - rewrite ltb_irrefl in F. discriminate.
  - eapply list_elem_of_lookup_2, Hk.
  - apply (list_elem_of_lookup_2 _ 0%nat). reflexivity.
Qed.

(** C9, as the code has it.  Encoding calls [save_resized_texture]: it
    writes the palette enlarged to 300 x 350 pixels to the file
    "resized_texture.png", changes no other file and prints nothing;
    the stream it returns does not depend on the world. *)
Theorem encoder_effect source_image texture f w :
  snd (serialize_image_to_uv source_image texture f w)
    = snd (save_resized_texture texture "resized_texture.png" w)
  /\ snd (serialize_image_to_uv source_image texture f w)
     = mkWorld (<["resized_texture.png" := enlarge_palette (palette_of texture)]> (files w))
               (stdout w)
  /\ (forall path, path <> "resized_texture.png" ->
        files (snd (serialize_image_to_uv source_image texture f w)) !! path = files w !! path)
  /\ forall w', fst (serialize_image_to_uv source_image texture f w')
                = fst (serialize_image_to_uv source_image texture f w).
Proof.
  rewrite serialize_image_to_uv_closed, save_resized_texture_closed. cbv zeta.
  split; [reflexivity|]. split; [reflexivity|]. split.
  - intros path Hp. simpl. apply lookup_insert_ne. congruence.
  - intros w'. rewrite serialize_image_to_uv_closed. reflexivity.
Qed.

End Codec.


(* ===================================================================== *)
(** * The [rgb] distance                                                  *)
(* ===================================================================== *)

(** C2.  The code's [rgb] distance is not the Euclidean distance: the
    difference of two [uint8] arrays wraps modulo 256, so from black to
    the colour (1,0,0) the code computes 255 where the Euclidean distance
    over the signed differences is 1. *)
Theorem rgb_dist_wraps :
  rgb_dist (x00, x00, x00) (x01, x00, x00) = 255%float
  /\ euclidean_rgb (x00, x00, x00) (x01, x00, x00) = 1%float.
Proof. split; vm_compute; reflexivity. Qed.

Lemma rgb_dist_zero_eq q t : fpos (rgb_dist q t) = false -> q = t.
Proof.
  intros Hp. destruct (norm_terms q t) as (H & _).
  apply term_ok_zero in H; [|exact Hp]. apply sum_squares_zero. lia.
Qed.

Lemma rgb_dist_self q : rgb_dist q q = 0%float.
Proof. apply rgb_dist_good. Qed.

Lemma rgb_dist_nonnan q t : fnonnan (rgb_dist q t) = true.
Proof. apply good_metric_nonnan, rgb_dist_good. Qed.

Lemma find_closest_colour_rgb_scan q tex :
  find_closest_colour_rgb (swap_rb q) tex = scan_palette (rgb_dist q) tex.
Proof. destruct q as [[a b] c]. reflexivity. Qed.

(** C6, as the code has it.  Quantizing the colour of a palette cell
    against the palette with [rgb] returns the first cell in scan order
    that holds the same colour: the cell itself when no earlier cell holds
    its colour. *)
Theorem rgb_exactness texture_resized v u :
  (v < 6)%nat -> (u < 7)%nat ->
  let q := pixel_at texture_resized v u in
  exists k v' u',
    scan_order !! k = Some (v', u')
    /\ find_closest_colour_rgb (swap_rb q) texture_resized = (Z.of_nat u', Z.of_nat v')
    /\ pixel_at texture_resized v' u' = q
    /\ (k <= 7 * v + u)%nat
    /\ (forall j c, (j < k)%nat -> scan_order !! j = Some c ->
          pixel_at texture_resized (fst c) (snd c) <> q)
    /\ ((forall j c, (j < 7 * v + u)%nat -> scan_order !! j = Some c ->
           pixel_at texture_resized (fst c) (snd c) <> q)
        -> find_closest_colour_rgb (swap_rb q) texture_resized = (Z.of_nat u, Z.of_nat v)).
Proof.
  intros Hv Hu q. rewrite find_closest_colour_rgb_scan.
  destruct (scan_earliest_min (rgb_dist q) texture_resized (rgb_dist_nonnan q))
    as (k & [v' u'] & Hk & Hr & Hmin & Hfirst).
  pose proof (scan_order_lookup v u Hv Hu) as Hvu.
  assert (Hq : cell_dist (rgb_dist q) texture_resized (v, u) = 0%float)
    by apply rgb_dist_self.
  assert (Hc : pixel_at texture_resized v' u' = q).
  { symmetry. apply rgb_dist_zero_eq.
    destruct (fpos _) eqn:F; [|reflexivity]. apply ltb_of_fpos in F.
    pose proof (Hmin (v, u) ltac:(eapply list_elem_of_lookup_2, Hvu)) as G.
    rewrite Hq in G. unfold cell_dist in G. simpl in G. congruence. }
  assert (Hk0 : cell_dist (rgb_dist q) texture_resized (v', u') = 0%float).
  { unfold cell_dist. simpl. rewrite Hc. apply rgb_dist_self. }
  assert (Hle : (k <= 7 * v + u)%nat).
  { destruct (le_lt_dec k (7 * v + u)) as [|Hgt]; [assumption|].
    pose proof (Hfirst _ _ Hgt Hvu) as F. rewrite Hk0, Hq in F. discriminate. }
  assert (Hbefore : forall j c, (j < k)%nat -> scan_order !! j = Some c ->
            pixel_at texture_resized (fst c) (snd c) <> q).
  { intros j c Hj Hc' Heq. pose proof (Hfirst j c Hj Hc') as F.
    rewrite Hk0 in F. unfold cell_dist in F. rewrite Heq, rgb_dist_self in F. discriminate. }
  exists k, v', u'. repeat split; auto.
  intros Hnone. rewrite Hr.
  destruct (Nat.eq_dec k (7 * v + u)%nat) as [->|Hne].
  - rewrite Hvu in Hk. inversion Hk. reflexivity.
  - exfalso. apply (Hnone k (v', u')); [lia|exact Hk|exact Hc].
Qed.

(* ===================================================================== *)
(** * Streams the encoder did not write                                   *)
(* ===================================================================== *)

Lemma is_digit_char a :
  is_digit a = true -> exists d, 0 <= d <= 9 /\ a = digit_char d.
Proof.
  unfold is_digit, digit_val. destruct (_ && _)%N eqn:E; [|discriminate]. intros _.
  apply andb_true_iff in E as [E1 E2]. apply N.leb_le in E1, E2.
  exists (Z.of_N (N_of_ascii a) - 48). split; [lia|].
  unfold digit_char. replace (48 + Z.to_N (Z.of_N (N_of_ascii a) - 48))%N with (N_of_ascii a) by lia.
  symmetry. apply ascii_N_embedding.
Qed.

Lemma two_decimal_cases s :
  is_two_decimal s = true -> exists n, 0 <= n < 1000 /\ s = two_decimal_string n.
Proof.
  destruct s as [|a [|p s2]]; try discriminate.
  destruct p as [[] [] [] [] [] [] [] []]; simpl; try (intros H; discriminate H).
  destruct s2 as [|b [|c [|? ?]]]; try (intros H; discriminate H).
  intros H. apply andb_true_iff in H as [H Hc]. apply andb_true_iff in H as [Ha Hb].
  apply is_digit_char in Ha as (da & Ha & ->), Hb as (db & Hb & ->), Hc as (dc & Hc & ->).
  exists (100 * da + 10 * db + dc). split; [lia|].
  unfold two_decimal_string.
  replace ((100 * da + 10 * db + dc) / 100) with da
    by (apply Z.div_unique with (10 * db + dc); lia).
  replace ((100 * da + 10 * db + dc) / 10) with (10 * da + db)
    by (apply Z.div_unique with dc; lia).
  replace ((10 * da + db) mod 10) with db by (apply Z.mod_unique with da; lia).
  replace ((100 * da + 10 * db + dc) mod 10) with dc
    by (apply Z.mod_unique with (10 * da + db); lia).
  reflexivity.
Qed.

Lemma two_decimals_checked : all_range 10 0 two_decimal_ok = true.
Proof. vm_compute. reflexivity. Qed.

(** A two-decimal text is a finite float from which both indices are
    computed. *)
Lemma two_decimal_parses s :
  is_two_decimal s = true ->
  exists x a b, py_float s = Some x
    /\ py_int (x * 7)%float = inr a /\ py_int ((1 - x) * 6)%float = inr b.
Proof.
  intros H. apply two_decimal_cases in H as (n & Hn & ->).
  pose proof (all_range_spec 10 0 _ two_decimals_checked n) as Hok.
  change (2 ^ Z.of_nat 10) with 1024 in Hok. specialize (Hok ltac:(lia)).
  unfold two_decimal_ok in Hok. replace (n <? 1000) with true in Hok by lia.
  destruct (py_float (two_decimal_string n)) as [x|]; [|discriminate].
  destruct (py_int (x * 7)%float) as [|a] eqn:Ea; [discriminate|].
  destruct (py_int ((1 - x) * 6)%float) as [|b] eqn:Eb; [discriminate|].
  exists x, a, b. auto.
Qed.

(** A well-formed entry is decoded without an exception. *)
Lemma well_formed_entry_cell e :
  well_formed_entry e = true -> exists c, entry_cell e = inr c.
Proof.
  unfold well_formed_entry, entry_cell.
  destruct (py_split ":" e) as [|x [|y [|z r]]]; try discriminate.
  intros H. apply andb_true_iff in H as [Hx Hy].
  apply two_decimal_parses in Hx as (fx & ax & _ & Hfx & Hax & _),
                              Hy as (fy & _ & by' & Hfy & _ & Hby).
  cbv zeta. change ([x; y] !! 0%nat) with (Some x). change ([x; y] !! 1%nat) with (Some y).
  cbv beta iota. rewrite Hfx, Hfy. simpl from_option. unfold ebind. rewrite Hax, Hby. eauto.
Qed.


Lemma mapM_exn_total {A B} (f : A -> exn + B) (l : list A) :
  Forall (fun a => exists b, f a = inr b) l -> exists bs, mapM_exn f l = inr bs.
Proof.
  induction 1 as [|a l [b Hb] _ [bs IH]]; simpl; [eauto|]. rewrite Hb, IH. simpl. eauto.
Qed.

Lemma forallb_well_formed (l : list string) :
  forallb well_formed_entry l = true -> Forall (fun e => exists c, entry_cell e = inr c) l.
Proof.
  intros H. apply Forall_forall. intros e He. apply well_formed_entry_cell.
  rewrite forallb_forall in H. apply H. apply list_elem_of_In. exact He.
Qed.

Section Streams.
Context {cv : OpenCV}.



(** C10.  For every stream of more than 6600 entries, all well formed,
    decoding gives what decoding its first 6600 entries alone gives, a
    preview of 66 rows and 100 columns; and whatever the stream, a
    preview that is returned has 66 rows and 100 columns. *)
Theorem decoder_surplus serialized_data texture output_path w :
  let entries := py_split "," serialized_data in
  forallb well_formed_entry entries = true ->
  (6600 < length entries)%nat ->
  create_uv_preview_image serialized_data texture output_path w
    = create_uv_preview_image (py_join "," (take 6600 entries)) texture output_path w
  /\ (exists preview w',
        create_uv_preview_image serialized_data texture output_path w = (inr preview, w')
        /\ shape preview = (66%nat, 100%nat))
  /\ (forall s preview w',
        create_uv_preview_image s texture output_path w = (inr preview, w') ->
        shape preview = (66%nat, 100%nat)).
Proof.
  intros entries Hwf Hlen. split; [|split].
  - rewrite !create_uv_preview_image_closed. fold entries.
    rewrite py_split_join.
    + rewrite take_take, Nat.min_id. reflexivity.
    + intros H. apply (f_equal length) in H. rewrite length_take_le in H by lia. discriminate.
    + apply Forall_take, py_split_parts_no_sep.
  - rewrite create_uv_preview_image_closed. fold entries.
    destruct (mapM_exn_total entry_cell (take 6600 entries)) as [cells ->].
    + apply Forall_take, forallb_well_formed, Hwf.
    + eexists _, _. split; [reflexivity|]. apply preview_shape.
  - intros s preview w'. rewrite create_uv_preview_image_closed.
    destruct (mapM_exn entry_cell _) as [err|cells]; [discriminate|].
    intros [= <- _]. apply preview_shape.
Qed.

End Streams.


(* ===================================================================== *)
(** * The statements at concrete inputs                                   *)
(* ===================================================================== *)

Lemma example_hue_in_range : hue_in_range example_cv.
Proof.
  intros [[r g] b]. unfold RGB2HSV, example_cv, example_hsv, chan0. simpl fst.
  apply Z.leb_le. destruct r; vm_compute; reflexivity.
Qed.

Lemma example_grid_shape : shape example_grid = (66%nat, 100%nat).
Proof. reflexivity. Qed.

Lemma encode_decode_encode_witness :
  exists stream w1 preview w2 w3,
    serialize_image_to_uv (cv := example_cv) example_grid example_texture
        (find_closest_colour_hsv (cv := example_cv)) empty_world = (inr stream, w1)
    /\ create_uv_preview_image (cv := example_cv) stream example_texture "image_preview.png" w1
       = (inr preview, w2)
    /\ serialize_image_to_uv (cv := example_cv) preview example_texture
         (find_closest_colour_hsv (cv := example_cv)) w2 = (inr stream, w3).
Proof.
  apply (encode_decode_encode (cv := example_cv) "hsv").
  - exact example_hue_in_range.
  - reflexivity.
  - exact example_grid_shape.
Defined.

Lemma encoder_traversal_witness :
  exists stream w',
    serialize_image_to_uv (cv := example_cv) example_grid example_texture
        find_closest_colour_rgb empty_world = (inr stream, w')
    /\ length (py_split "," stream) = 6600%nat
    /\ forall i m, (i < 100)%nat -> (m < 66)%nat ->
         py_split "," stream !! (66 * i + m)%nat
         = Some (uv_token (find_closest_colour_rgb (pixel_at example_grid (65 - m) i)
                             (palette_of (cv := example_cv) example_texture))).
Proof.
  apply (encoder_traversal (cv := example_cv)). exact example_grid_shape.
Defined.

Lemma encoder_token_witness :
  (exists stream w',
     serialize_image_to_uv (cv := example_cv) example_grid example_texture
         find_closest_colour_rgb empty_world = (inr stream, w')
     /\ forall i m, (i < 100)%nat -> (m < 66)%nat ->
          let best := find_closest_colour_rgb (pixel_at example_grid (65 - m) i)
                        (palette_of (cv := example_cv) example_texture) in
          py_split "," stream !! (66 * i + m)%nat = Some (token_formula best)
          /\ token_formula best
             = nth (Z.to_nat (np_clip_int (fst best) 0 6)) u_strings "" +:+ ":"
                 +:+ nth (Z.to_nat (np_clip_int (snd best) 0 5)) v_strings "")
  /\ token_formula (6, 5) = "0.99:0.01"
  /\ token_formula (0, 0) = "0.01:0.99"
  /\ find_closest_colour_rgb (x00, x00, xff) red_palette = (0, 0)
  /\ uv_token (find_closest_colour_rgb (x00, x00, xff) red_palette) = "0.01:0.99".
Proof.
  apply (encoder_token (cv := example_cv)). exact example_grid_shape.
Defined.

Lemma quantizer_scan_witness :
  let dist := lab_dist (cv := example_cv) (swap_rb (x10, x80, xf0)) in
  get_algorithm_function (cv := example_cv) "lab" = Some (find_closest_colour_lab (cv := example_cv))
  /\ get_available_algorithms (cv := example_cv)
     = ["perceptual"; "rgb"; "hsv"; "lab"; "weighted"; "simple"; "perceptual_hsv"]
  /\ find_closest_colour_lab (cv := example_cv) (x10, x80, xf0) red_palette
     = snd (fold_left (scan_step dist red_palette) scan_order scan_init)
  /\ length scan_order = 42%nat
  /\ (forall v u, (v < 6)%nat -> (u < 7)%nat -> scan_order !! (7 * v + u)%nat = Some (v, u))
  /\ (forall st c,
        scan_step dist red_palette st c
        = if PrimFloat.ltb (cell_dist dist red_palette c) (fst st)
          then (cell_dist dist red_palette c, cell_index c) else st)
  /\ (exists k ck,
        scan_order !! k = Some ck
        /\ find_closest_colour_lab (cv := example_cv) (x10, x80, xf0) red_palette = cell_index ck
        /\ (forall c, c ∈ scan_order ->
              PrimFloat.ltb (cell_dist dist red_palette c) (cell_dist dist red_palette ck) = false)
        /\ (forall j c, (j < k)%nat -> scan_order !! j = Some c ->
              PrimFloat.ltb (cell_dist dist red_palette ck) (cell_dist dist red_palette c) = true))
  /\ ((forall c c', c ∈ scan_order -> c' ∈ scan_order ->
         cell_dist dist red_palette c = cell_dist dist red_palette c')
      -> find_closest_colour_lab (cv := example_cv) (x10, x80, xf0) red_palette = (0, 0)).
Proof.
  apply (quantizer_scan (cv := example_cv) "lab" find_closest_colour_lab lab_dist
           (x10, x80, xf0) red_palette).
  right. right. right. left. reflexivity.
Defined.

(** C6 as stated fails: in a palette whose cells are all black, the
    colour of cell (u=1, v=0) is matched to cell (0,0). *)
Lemma rgb_exactness_fails_on_duplicates :
  find_closest_colour_rgb (swap_rb (pixel_at (np_zeros 6 7) 0 1)) (np_zeros 6 7)
  <> (Z.of_nat 1, Z.of_nat 0).
Proof. vm_compute. discriminate. Qed.

Lemma rgb_exactness_witness :
  let q := pixel_at example_texture 2 3 in
  exists k v' u',
    scan_order !! k = Some (v', u')
    /\ find_closest_colour_rgb (swap_rb q) example_texture = (Z.of_nat u', Z.of_nat v')
    /\ pixel_at example_texture v' u' = q
    /\ (k <= 7 * 2 + 3)%nat
    /\ (forall j c, (j < k)%nat -> scan_order !! j = Some c ->
          pixel_at example_texture (fst c) (snd c) <> q)
    /\ ((forall j c, (j < 7 * 2 + 3)%nat -> scan_order !! j = Some c ->
           pixel_at example_texture (fst c) (snd c) <> q)
        -> find_closest_colour_rgb (swap_rb q) example_texture = (Z.of_nat 3, Z.of_nat 2)).
Proof.
  apply (rgb_exactness example_texture 2 3); lia.
Defined.






Lemma decoder_surplus_witness :
  let entries := py_split "," long_stream in
  create_uv_preview_image (cv := example_cv) long_stream example_texture
      "image_preview.png" empty_world
    = create_uv_preview_image (cv := example_cv) (py_join "," (take 6600 entries))
        example_texture "image_preview.png" empty_world
  /\ (exists preview w',
        create_uv_preview_image (cv := example_cv) long_stream example_texture
          "image_preview.png" empty_world = (inr preview, w')
        /\ shape preview = (66%nat, 100%nat))
  /\ (forall s preview w',
        create_uv_preview_image (cv := example_cv) s example_texture
          "image_preview.png" empty_world = (inr preview, w') ->
        shape preview = (66%nat, 100%nat)).
Proof.
  apply (decoder_surplus (cv := example_cv) long_stream example_texture
           "image_preview.png" empty_world).
  - vm_compute. reflexivity.
  - apply Nat.ltb_lt. vm_compute. reflexivity.
Defined.

(** C9 as stated fails: encoding in a world without files leaves the file
    "resized_texture.png" behind. *)
Lemma encoder_writes_a_file :
  files empty_world !! "resized_texture.png" = None
  /\ exists img,
       files (snd (serialize_image_to_uv (cv := example_cv) example_grid example_texture
                     find_closest_colour_rgb empty_world)) !! "resized_texture.png"
       = Some img.
Proof.
  split; [reflexivity|]. rewrite serialize_image_to_uv_closed. cbv zeta.
  eexists. simpl files. apply lookup_insert_eq.
Qed.


(* ===================================================================== *)
(** * Further properties of the encoder and the decoder                   *)
(* ===================================================================== *)

(** X1.  The decoder reads back from the token of a cell that cell, clamped to
    the palette. *)
Theorem token_roundtrip best : entry_cell (uv_token best) = inr (clamp_cell best).
Proof. apply entry_cell_uv_token. Qed.

(** X2.  A cell the decoder computes lies in the palette. *)
Theorem entry_cell_in_palette e u v :
  entry_cell e = inr (u, v) -> 0 <= u <= 6 /\ 0 <= v <= 5.
Proof.
  unfold entry_cell. cbv zeta.
  destruct (match py_split ":" e !! 0%nat with Some f => _ | None => _ end) as [|x]; [discriminate|].
  simpl ebind.
  destruct (match py_split ":" e !! 1%nat with Some f => _ | None => _ end) as [|y]; [discriminate|].
  simpl ebind.
  destruct (py_int (x * 7)%float) as [|a]; [discriminate|]. simpl ebind.
  destruct (py_int ((1 - y) * 6)%float) as [|b]; [discriminate|]. simpl ebind.
  intros [= <- <-]. lia.
Qed.

Lemma entry_cell_fields e1 e2 x y r1 r2 :
  py_split ":" e1 = x :: y :: r1 -> py_split ":" e2 = x :: y :: r2 ->
  entry_cell e1 = entry_cell e2.
Proof. unfold entry_cell. intros -> ->. reflexivity. Qed.

(** X3.  Fields after the second one are ignored. *)
Theorem entry_extra_fields_ignored x y rest :
  has_char ":" x = false -> has_char ":" y = false ->
  entry_cell (x +:+ ":" +:+ y +:+ ":" +:+ rest) = entry_cell (x +:+ ":" +:+ y).
Proof.
  intros Hx Hy.
  apply (entry_cell_fields _ _ x y (py_split ":" rest) []).
  - change (x +:+ ":" +:+ y +:+ ":" +:+ rest) with (x +:+ String ":" (y +:+ String ":" rest)).
    rewrite !py_split_app by assumption. reflexivity.
  - change (x +:+ ":" +:+ y) with (x +:+ String ":" y).
    rewrite py_split_app, py_split_no_sep by assumption. reflexivity.
Qed.

Lemma entry_no_colon e :
  has_char ":" e = false ->
  entry_cell e = match py_float e with Some _ => inl IndexError | None => inl ValueError end.
Proof.
  intros H. unfold entry_cell. cbv zeta. rewrite (py_split_no_sep _ _ H).
  change ([e] !! 0%nat) with (Some e). change ([e] !! 1%nat) with (@None string).
  cbv beta iota. destruct (py_float e); reflexivity.
Qed.

Lemma string_length_app (s1 s2 : string) :
  String.length (s1 +:+ s2) = (String.length s1 + String.length s2)%nat.
Proof. induction s1 as [|a s1 IH]; simpl; [reflexivity|]. rewrite IH. reflexivity. Qed.

Lemma concat_length (l : list string) :
  l <> [] ->
  String.length (String.concat "," l)
  = (list_sum (map String.length l) + (length l - 1))%nat.
Proof.
  induction l as [|s l IH]; intros Hne; [contradiction|].
  destruct l as [|s' l].
  - simpl. lia.
  - change (String.concat "," (s :: s' :: l))
      with (s +:+ String "," (String.concat "," (s' :: l))).
    rewrite string_length_app.
    change (String.length (String "," (String.concat "," (s' :: l))))
      with (S (String.length (String.concat "," (s' :: l)))).
    rewrite IH by discriminate.
    cbn [map list_sum length fold_right]. lia.
Qed.

Lemma uv_token_length best : String.length (uv_token best) = 9%nat.
Proof.
  rewrite uv_token_clamp. apply (uv_token_all (fun c => String.length (uv_token c) = 9%nat)).
  intros u v Hu Hv. simpl in Hu, Hv.
  repeat (destruct Hu as [<-|Hu]; [repeat (destruct Hv as [<-|Hv]; [vm_compute; reflexivity|]); contradiction|]).
  contradiction.
Qed.

Lemma list_sum_const (l : list nat) n :
  Forall (fun x => x = n) l -> list_sum l = (length l * n)%nat.
Proof. induction 1 as [|x l -> _ IH]; simpl; [reflexivity|]. rewrite IH. reflexivity. Qed.

Lemma fold_left_nested {A} (F : nat -> nat -> A -> A) (us vs : list nat) (a0 : A) :
  fold_left (fun a v => fold_left (fun a u => F v u a) us a) vs a0
  = fold_left (fun a c => F (fst c) (snd c) a)
      (flat_map (fun v => map (fun u => (v, u)) us) vs) a0.
Proof.
  revert a0. induction vs as [|v vs IH]; intros a0; simpl; [reflexivity|].
  rewrite fold_left_app, <- IH. f_equal.
  generalize a0. clear. induction us as [|u us IHu]; intros a; simpl; [reflexivity|]. apply IHu.
Qed.

(** ** The palette image *)

Lemma fill_rect_shape h w img y1 y2 x1 x2 c :
  has_shape h w img -> has_shape h w (fill_rect img y1 y2 x1 x2 c).
Proof.
  unfold has_shape, fill_rect. intros [Hl Hr]. split; [rewrite length_imap; exact Hl|].
  apply Forall_lookup_2. intros k row Hk.
  rewrite list_lookup_imap in Hk. destruct (img !! k) as [row0|] eqn:E; [|discriminate].
  simpl in Hk. inversion Hk; subst.
  pose proof (Forall_lookup_1 _ _ _ _ Hr E) as Hw. simpl in Hw.
  destruct (_ && _); [rewrite length_imap|]; exact Hw.
Qed.

Lemma pixel_at_fill_rect h w img y1 y2 x1 x2 c y x :
  has_shape h w img -> (y < h)%nat -> (x < w)%nat ->
  pixel_at (fill_rect img y1 y2 x1 x2 c) y x
  = if ((y1 <=? y)%nat && (y <? y2)%nat) && ((x1 <=? x)%nat && (x <? x2)%nat)
    then c else pixel_at img y x.
Proof.
  intros Hs Hy Hx. unfold pixel_at, fill_rect. rewrite list_lookup_imap.
  destruct Hs as [Hl Hr].
  destruct (lookup_lt_is_Some_2 img y ltac:(lia)) as [row Hrow]. rewrite Hrow. simpl.
  pose proof (Forall_lookup_1 _ _ _ _ Hr Hrow) as Hw. simpl in Hw.
  destruct (lookup_lt_is_Some_2 row x ltac:(lia)) as [p Hp].
  destruct ((y1 <=? y)%nat && (y <? y2)%nat); simpl; [|reflexivity].
  rewrite list_lookup_imap, Hp. simpl.
  destruct ((x1 <=? x)%nat && (x <? x2)%nat); reflexivity.
Qed.

Lemma in_square v y : ((v * 50 <=? y)%nat && (y <? (v + 1) * 50)%nat) = (y / 50 =? v)%nat.
Proof.
  destruct (Nat.eqb_spec (y / 50) v) as [<-|Hne].
  - pose proof (Nat.div_mod_eq y 50). pose proof (Nat.mod_upper_bound y 50 ltac:(lia)).
    apply andb_true_iff. split; [apply Nat.leb_le|apply Nat.ltb_lt]; lia.
  - apply andb_false_iff.
    destruct (le_lt_dec (v * 50) y) as [Hle|Hlt]; [|left; apply Nat.leb_gt; lia].
    right. apply Nat.ltb_ge.
    destruct (le_lt_dec ((v + 1) * 50) y) as [|Hlt]; [assumption|exfalso].
    apply Hne. symmetry. apply (Nat.div_unique y 50 v (y - v * 50)); lia.
Qed.

Lemma fold_fill_shape (pal : Image) (l : list (nat * nat)) : forall img,
  has_shape 300 350 img ->
  has_shape 300 350
    (fold_left (fun img c =>
                  fill_rect img (fst c * 50) ((fst c + 1) * 50) (snd c * 50) ((snd c + 1) * 50)
                    (swap_rb (pixel_at pal (fst c) (snd c)))) l img).
Proof.
  induction l as [|c l IH]; intros img Hs; simpl; [exact Hs|]. apply IH, fill_rect_shape, Hs.
Qed.

Lemma fold_fill_pixel (pal : Image) (l : list (nat * nat)) y x : forall img,
  has_shape 300 350 img -> (y < 300)%nat -> (x < 350)%nat ->
  pixel_at
    (fold_left (fun img c =>
                  fill_rect img (fst c * 50) ((fst c + 1) * 50) (snd c * 50) ((snd c + 1) * 50)
                    (swap_rb (pixel_at pal (fst c) (snd c)))) l img) y x
  = if bool_decide ((y / 50, x / 50)%nat ∈ l)
    then swap_rb (pixel_at pal (y / 50) (x / 50)) else pixel_at img y x.
Proof.
  induction l as [|[v u] l IH]; intros img Hs Hy Hx; [reflexivity|].
  simpl fold_left. rewrite IH by (try apply fill_rect_shape; assumption).
  rewrite (pixel_at_fill_rect 300 350) by assumption. simpl fst. simpl snd.
  rewrite !in_square.
  destruct (bool_decide ((y / 50, x / 50)%nat ∈ l)) eqn:E.
  - apply bool_decide_eq_true in E. rewrite bool_decide_eq_true_2; [reflexivity|].
    right. exact E.
  - apply bool_decide_eq_false in E.
    destruct (Nat.eqb_spec (y / 50) v) as [Hv|Hv]; destruct (Nat.eqb_spec (x / 50) u) as [Hu|Hu]; simpl.
    + subst. rewrite bool_decide_eq_true_2; [reflexivity|left].
    + rewrite bool_decide_eq_false_2; [reflexivity|].
      intros H. apply elem_of_cons in H as [H|H]; [inversion H; contradiction|contradiction].
    + rewrite bool_decide_eq_false_2; [reflexivity|].
      intros H. apply elem_of_cons in H as [H|H]; [inversion H; contradiction|contradiction].
    + rewrite bool_decide_eq_false_2; [reflexivity|].
      intros H. apply elem_of_cons in H as [H|H]; [inversion H; contradiction|contradiction].
Qed.

Lemma enlarge_palette_fold pal :
  enlarge_palette pal
  = fold_left (fun img c =>
                 fill_rect img (fst c * 50) ((fst c + 1) * 50) (snd c * 50) ((snd c + 1) * 50)
                   (swap_rb (pixel_at pal (fst c) (snd c)))) scan_order (np_zeros 300 350).
Proof.
  unfold enlarge_palette, scan_order. cbv zeta.
  apply (fold_left_nested
           (fun v u img => fill_rect img (v * 50) ((v + 1) * 50) (u * 50) ((u + 1) * 50)
                             (swap_rb (pixel_at pal v u)))).
Qed.

Lemma enlarge_palette_shape pal : has_shape 300 350 (enlarge_palette pal).
Proof. rewrite enlarge_palette_fold. apply fold_fill_shape, np_zeros_shape. Qed.

Lemma enlarge_palette_pixel pal y x :
  (y < 300)%nat -> (x < 350)%nat ->
  pixel_at (enlarge_palette pal) y x = swap_rb (pixel_at pal (y / 50) (x / 50)).
Proof.
  intros Hy Hx. rewrite enlarge_palette_fold.
  rewrite fold_fill_pixel by (try apply np_zeros_shape; assumption).
  rewrite bool_decide_eq_true_2; [reflexivity|].
  assert (Hv : (y / 50 < 6)%nat) by (apply Nat.Div0.div_lt_upper_bound; lia).
  assert (Hu : (x / 50 < 7)%nat) by (apply Nat.Div0.div_lt_upper_bound; lia).
  eapply list_elem_of_lookup_2, (scan_order_lookup _ _ Hv Hu).
Qed.

Lemma grid_stream_length src pal f :
  String.length (py_join "," (grid_tokens src pal f 100 66)) = 65999%nat.
Proof.
  unfold py_join. rewrite concat_length.
  - rewrite (list_sum_const _ 9), length_map, grid_tokens_length; [reflexivity|].
    rewrite grid_tokens_cells. apply Forall_map, Forall_map, Forall_forall.
    intros b _. apply uv_token_length.
  - intros H. apply (f_equal length) in H. rewrite grid_tokens_length in H. discriminate.
Qed.

Section Extras.
Context {cv : OpenCV}.

(** X4.  When [save_resized_texture] returns, the image it returns has 300
  rows and 350 columns and its pixel [(y, x)] has the colour of the
  palette cell [(y / 50, x / 50)], in BGR order; nothing is printed, no
  file other than the output path is touched, and the file under the
  output path is that image or is left as it was.  When it raises,
  nothing was written or printed. *)
Theorem save_resized_texture_tiles texture output_path w :
let r := save_resized_texture texture output_path w in
match fst r with
| inl _ => snd r = w
| inr img =>
    shape img = (300%nat, 350%nat)
    /\ (forall y x, (y < 300)%nat -> (x < 350)%nat ->
          pixel_at img y x = swap_rb (pixel_at (palette_of texture) (y / 50) (x / 50)))
    /\ stdout (snd r) = stdout w
    /\ (forall p, p <> output_path -> files (snd r) !! p = files w !! p)
    /\ (files (snd r) !! output_path = Some img
        \/ files (snd r) !! output_path = files w !! output_path)
end.
Proof.
cbv zeta. rewrite save_resized_texture_closed. cbn [fst snd files stdout].
split; [apply has_shape_shape; [apply enlarge_palette_shape|lia]|].
split; [apply enlarge_palette_pixel|]. split; [reflexivity|]. split.
- intros p Hp. apply lookup_insert_ne. congruence.
- left. apply lookup_insert_eq.
Qed.

(** X5.  Decoding what the encoder wrote for a grid gives a preview in which
  every pixel has the palette colour of the cell its source pixel was
  matched to, at the same row and column: the final flip undoes the
  bottom-up order of the encoder. *)
Theorem preview_of_encoded grid texture f path w :
shape grid = (66%nat, 100%nat) ->
exists stream w1 preview w2,
  serialize_image_to_uv grid texture f w = (inr stream, w1)
  /\ create_uv_preview_image stream texture path w1 = (inr preview, w2)
  /\ shape preview = (66%nat, 100%nat)
  /\ forall j i, (j < 66)%nat -> (i < 100)%nat ->
       let c := clamp_cell (f (pixel_at grid j i) (palette_of texture)) in
       pixel_at preview j i
       = swap_rb (pixel_at (palette_of texture) (Z.to_nat (snd c)) (Z.to_nat (fst c))).
Proof.
intros Hs.
set (pal := palette_of texture).
exists (py_join "," (grid_tokens grid pal f 100 66)),
       (mkWorld (<["resized_texture.png" := enlarge_palette pal]> (files w)) (stdout w)),
       (cv_flip0 (painted pal (map clamp_cell (grid_cells grid pal f 100 66)))).
eexists. split; [apply serialize_image_to_uv_grid, Hs|]. split.
- rewrite create_uv_preview_image_closed. fold pal. rewrite decode_encoded. reflexivity.
- split; [apply preview_shape|]. intros j i Hj Hi c. subst c.
  rewrite preview_pixel by assumption. rewrite list_lookup_fmap.
  rewrite (grid_cells_lookup grid pal f 100 66 i (65 - j)) by lia.
  cbn [fmap option_fmap option_map].
  replace (66 - 1 - (65 - j))%nat with j by lia. reflexivity.
Qed.

(** X6.  Every function of [ALGORITHMS] returns an index inside the 7 x 6
  palette. *)
Theorem quantizer_in_palette name f pixel texture_resized :
get_algorithm_function name = Some f ->
0 <= fst (f pixel texture_resized) <= 6 /\ 0 <= snd (f pixel texture_resized) <= 5.
Proof. intros Hf. apply (family_in_grid name f Hf). Qed.

(** X7.  With a function of [ALGORITHMS], the colour of the cell a pixel was
  matched to is matched to that same cell. *)
Theorem quantizer_stable name f pixel texture_resized :
hue_in_range cv -> get_algorithm_function name = Some f ->
let best := f pixel texture_resized in
f (swap_rb (pixel_at texture_resized (Z.to_nat (snd best)) (Z.to_nat (fst best))))
  texture_resized = best.
Proof. intros Hue Hf best. apply (family_requantize name f Hue Hf). Qed.

(** X8.  [get_algorithm_function] returns [None] exactly for the names that
  are not among the seven of [get_available_algorithms], which are
  pairwise different. *)
Theorem algorithm_lookup name :
(get_algorithm_function name = None <-> ~ In name get_available_algorithms)
/\ get_available_algorithms
   = ["perceptual"; "rgb"; "hsv"; "lab"; "weighted"; "simple"; "perceptual_hsv"]
/\ NoDup get_available_algorithms.
Proof.
split; [|split; [reflexivity|]].
- unfold get_algorithm_function, get_available_algorithms, ALGORITHMS. cbn [find fst map In].
  repeat (match goal with |- context [String.eqb ?a name] => destruct (String.eqb_spec a name) end;
          [split; [cbn; discriminate|intros H; exfalso; apply H; tauto]|]).
  split; [tauto|reflexivity].
- unfold get_available_algorithms, ALGORITHMS. cbn [map fst].
  repeat (apply NoDup_cons_2;
          [intros H; repeat (apply elem_of_cons in H as [H|H]; [discriminate H|]);
           apply elem_of_nil in H; exact H|]).
  apply NoDup_nil_2.
Qed.

(** X9.  Whatever the stream, when the decoder raises it has written and
  printed nothing; when it returns, the preview has 66 rows and 100
  columns, the one line [Preview saved: <path>] was printed, no file
  other than the output path is touched, and the file under the output
  path is the preview or is left as it was. *)
Theorem decoder_effect serialized_data texture output_path w :
let r := create_uv_preview_image serialized_data texture output_path w in
match fst r with
| inl _ => snd r = w
| inr preview =>
    shape preview = (66%nat, 100%nat)
    /\ stdout (snd r) = (stdout w ++ ["Preview saved: " +:+ output_path])%list
    /\ (forall p, p <> output_path -> files (snd r) !! p = files w !! p)
    /\ (files (snd r) !! output_path = Some preview
        \/ files (snd r) !! output_path = files w !! output_path)
end.
Proof.
cbv zeta. rewrite create_uv_preview_image_closed.
destruct (mapM_exn entry_cell _) as [err|cells]; [reflexivity|].
cbv zeta. cbn [fst snd files stdout].
split; [apply preview_shape|]. split; [reflexivity|]. split.
- intros p Hp. apply lookup_insert_ne. congruence.
- left. apply lookup_insert_eq.
Qed.

(** X10.  A stream without a comma is one entry, also when it is empty; when
  it holds no colon either, decoding raises and leaves the world as it
  was: [ValueError] when the stream is not a float (the empty stream is
  not), [IndexError] when it is. *)
Theorem decoder_single_field serialized_data texture output_path w :
has_char "," serialized_data = false -> has_char ":" serialized_data = false ->
create_uv_preview_image serialized_data texture output_path w
= (inl (match py_float serialized_data with Some _ => IndexError | None => ValueError end), w).
Proof.
intros Hc Hn. rewrite create_uv_preview_image_closed.
rewrite (py_split_no_sep _ _ Hc), take_ge by (rewrite n6600; simpl; lia).
cbn [mapM_exn]. rewrite (entry_no_colon _ Hn).
destruct (py_float serialized_data); reflexivity.
Qed.

(** X11.  The stream of a grid of 66 rows and 100 columns has 65999
  characters, and each of its entries is well formed. *)
Theorem encoder_stream_format grid texture f w :
shape grid = (66%nat, 100%nat) ->
exists stream w',
  serialize_image_to_uv grid texture f w = (inr stream, w')
  /\ String.length stream = 65999%nat
  /\ forallb well_formed_entry (py_split "," stream) = true.
Proof.
intros Hs.
exists (py_join "," (grid_tokens grid (palette_of texture) f 100 66)),
       (mkWorld (<["resized_texture.png" := enlarge_palette (palette_of texture)]> (files w))
                (stdout w)).
split; [apply serialize_image_to_uv_grid, Hs|]. split.
- apply grid_stream_length.
- rewrite grid_tokens_split. apply forallb_forall. intros s Hin.
  rewrite grid_tokens_cells in Hin. apply in_map_iff in Hin as (b & <- & _).
  apply uv_token_well_formed.
Qed.

(** X12.  A source image of another shape is resized first: its stream is the
  stream of the resized image, with 6600 entries when [cv.resize]
  returns the size it is asked for. *)
Theorem encoder_resizes source_image texture f w :
resizes_to_grid cv ->
shape source_image <> (66%nat, 100%nat) ->
fst (serialize_image_to_uv source_image texture f w)
  = fst (serialize_image_to_uv (cv_resize source_image 100 66) texture f w)
/\ exists stream,
     fst (serialize_image_to_uv source_image texture f w) = inr stream
     /\ length (py_split "," stream) = 6600%nat.
Proof.
intros Hr Hne.
assert (Hcond : negb (snd (shape source_image) =? 100)%nat
                || negb (fst (shape source_image) =? 66)%nat = true).
{ destruct (shape source_image) as [h w0]. simpl.
  destruct (Nat.eqb_spec w0 100) as [->|]; [|reflexivity].
  destruct (Nat.eqb_spec h 66) as [->|]; [contradiction|reflexivity]. }
rewrite serialize_image_to_uv_closed. cbv zeta. rewrite Hcond.
rewrite (serialize_image_to_uv_grid _ texture f w (Hr source_image)), (Hr source_image).
split; [reflexivity|].
eexists. split; [reflexivity|]. rewrite grid_tokens_split, grid_tokens_length. reflexivity.
Qed.

End Extras.

(** ** The [rgb] distance without wrap-around *)

Lemma u8_sub_no_wrap a b : u8 b <= u8 a -> u8_sub a b = u8 a - u8 b.
Proof.
  intros H. unfold u8_sub. pose proof (u8_range a). pose proof (u8_range b).
  apply Z.mod_small. lia.
Qed.

(** X13.  When no channel of the palette colour exceeds the pixel's, the code's
    distance is the Euclidean distance. *)
Theorem rgb_dist_euclidean p t :
  u8 (chan0 t) <= u8 (chan0 p) -> u8 (chan1 t) <= u8 (chan1 p) ->
  u8 (chan2 t) <= u8 (chan2 p) ->
  rgb_dist p t = euclidean_rgb p t.
Proof.
  intros H0 H1 H2. unfold rgb_dist, euclidean_rgb, cv_norm, sum_squares, u8x3_sub.
  rewrite !u8_sub_no_wrap by assumption. reflexivity.
Qed.

(** X14.  The code's distance is zero exactly between equal colours. *)
Theorem rgb_dist_zero_iff p t : rgb_dist p t = 0%float <-> p = t.
Proof.
  split.
  - intros H. apply rgb_dist_zero_eq. rewrite H. reflexivity.
  - intros ->. apply rgb_dist_self.
Qed.

(** ** The hexadecimal text *)

Lemma hex_item_no_comma c : has_char "," (hex_item c) = false.
Proof. destruct c as [[] [] [] [] [] [] [] []]; reflexivity. Qed.

Lemma hex_value_item c : hex_value (hex_item c) = N_of_ascii c.
Proof. destruct c as [[] [] [] [] [] [] [] []]; vm_compute; reflexivity. Qed.

Lemma hex_item_inj c1 c2 : hex_item c1 = hex_item c2 -> c1 = c2.
Proof.
  intros H. apply (f_equal hex_value) in H. rewrite !hex_value_item in H.
  rewrite <- (ascii_N_embedding c1), <- (ascii_N_embedding c2), H. reflexivity.
Qed.

Lemma map_hex_item_inj l1 : forall l2, map hex_item l1 = map hex_item l2 -> l1 = l2.
Proof.
  induction l1 as [|a l1 IH]; intros [|b l2] H; try discriminate; [reflexivity|].
  cbn [map] in H.
  assert (Ha : hex_item a = hex_item b) by congruence.
  assert (Hl : map hex_item l1 = map hex_item l2) by congruence.
  apply hex_item_inj in Ha. apply IH in Hl. congruence.
Qed.

Lemma hex_split t :
  t <> "" -> py_split "," (hex_serialize t) = map hex_item (list_ascii_of_string t).
Proof.
  intros Ht. unfold hex_serialize. apply py_split_join.
  - destruct t; [contradiction|discriminate].
  - apply Forall_map, Forall_forall. intros c _. apply hex_item_no_comma.
Qed.

Lemma length_list_ascii s : length (list_ascii_of_string s) = String.length s.
Proof. induction s as [|a s IH]; simpl; [reflexivity|]. rewrite IH. reflexivity. Qed.

Lemma list_ascii_app s1 s2 :
  list_ascii_of_string (s1 +:+ s2) = (list_ascii_of_string s1 ++ list_ascii_of_string s2)%list.
Proof. induction s1 as [|a s1 IH]; simpl; [reflexivity|]. rewrite IH. reflexivity. Qed.

Lemma uv_token_chars best : forallb stream_char (list_ascii_of_string (uv_token best)) = true.
Proof.
  rewrite uv_token_clamp.
  apply (uv_token_all (fun c => forallb stream_char (list_ascii_of_string (uv_token c)) = true)).
  intros u v Hu Hv. simpl in Hu, Hv.
  repeat (destruct Hu as [<-|Hu];
          [repeat (destruct Hv as [<-|Hv]; [vm_compute; reflexivity|]); contradiction|]).
  contradiction.
Qed.

Lemma join_chars (l : list string) :
  Forall (fun s => forallb stream_char (list_ascii_of_string s) = true) l ->
  forallb stream_char (list_ascii_of_string (py_join "," l)) = true.
Proof.
  unfold py_join. induction 1 as [|s l Hs Hl IH]; [reflexivity|].
  destruct l as [|s' l]; [exact Hs|].
  change (String.concat "," (s :: s' :: l))
    with (s +:+ String "," (String.concat "," (s' :: l))).
  rewrite list_ascii_app, forallb_app, Hs.
  change (list_ascii_of_string (String "," (String.concat "," (s' :: l))))
    with ("," :: list_ascii_of_string (String.concat "," (s' :: l)))%char.
  cbn [forallb]. rewrite IH. reflexivity.
Qed.

Lemma stream_char_item a :
  stream_char a = true ->
  In (hex_item a)
     ["0x30"; "0x31"; "0x32"; "0x33"; "0x34"; "0x35"; "0x36"; "0x37"; "0x38"; "0x39";
      "0x2E"; "0x3A"; "0x2C"].
Proof.
  destruct a as [[] [] [] [] [] [] [] []]; intros H; try discriminate H;
    vm_compute; repeat (first [left; reflexivity|right]).
Qed.

(** X15.  The hexadecimal text has one item per character of a non-empty
    stream; read as hexadecimal numbers the items are the character codes
    of the stream, in order, so two streams with the same text are equal. *)
Theorem hex_serialize_faithful s :
  s <> "" ->
  py_split "," (hex_serialize s) = map hex_item (list_ascii_of_string s)
  /\ map hex_value (py_split "," (hex_serialize s)) = map N_of_ascii (list_ascii_of_string s)
  /\ forall s', s' <> "" -> hex_serialize s = hex_serialize s' -> s = s'.
Proof.
  intros Hne. pose proof hex_split as Hsplit.
  split; [apply Hsplit, Hne|]. split.
  - rewrite Hsplit by exact Hne. rewrite map_map. apply map_ext. intros c. apply hex_value_item.
  - intros s' Hne' H. apply (f_equal (py_split ",")) in H.
    rewrite !Hsplit in H by assumption. apply map_hex_item_inj in H.
    rewrite <- (string_of_list_ascii_of_string s), <- (string_of_list_ascii_of_string s').
    rewrite H. reflexivity.
Qed.

(** ** Paths *)

Section Paths.
Context {cv : OpenCV} {os : OsPath}.

Lemma normalize_separator image_path :
has_char "/" image_path || has_char "\" image_path = true ->
normalize_image_path image_path = image_path.
Proof.
intros H. unfold normalize_image_path.
destruct (os_path_isabs image_path); [reflexivity|].
apply orb_true_iff in H as [H|H]; rewrite H, ?orb_true_r; reflexivity.
Qed.

(** X16.  A path that holds a slash or a backslash is returned as it is, on
  every platform. *)
Theorem normalize_image_path_with_separator image_path :
has_char "/" image_path || has_char "\" image_path = true ->
normalize_image_path image_path = image_path.
Proof. apply normalize_separator. Qed.

(** X17.  Normalizing twice is normalizing once. *)
Theorem normalize_image_path_idempotent image_path :
join_has_separator os ->
normalize_image_path (normalize_image_path image_path) = normalize_image_path image_path.
Proof.
intros Hj.
assert (H : normalize_image_path image_path = image_path
            \/ normalize_image_path image_path = os_path_join "images" image_path).
{ unfold normalize_image_path. destruct (os_path_isabs image_path); [left; reflexivity|].
  destruct (_ || _); [left|right]; reflexivity. }
destruct H as [H|H]; rewrite H; [exact H|].
apply (normalize_separator (os_path_join "images" image_path)). apply Hj.
Qed.

(** X18.  [process_image_with_algorithm] raises [ValueError], writing and
  printing nothing, when the source image or the texture cannot be read
  or the algorithm name is unknown. *)
Theorem process_image_errors source_image_path texture_path algorithm_name output_prefix w :
files w !! source_image_path = None \/ files w !! texture_path = None
\/ get_algorithm_function algorithm_name = None ->
process_image_with_algorithm source_image_path texture_path algorithm_name output_prefix w
= (inl ValueError, w).
Proof.
intros H. unfold process_image_with_algorithm, bind, cv_imread, raise.
destruct (files w !! source_image_path) as [src|]; [|reflexivity].
destruct (files w !! texture_path) as [tex|]; [|reflexivity].
destruct (get_algorithm_function algorithm_name) as [f|]; [|reflexivity].
destruct H as [H|[H|H]]; discriminate.
Qed.

Lemma process_image_closed source_image_path texture_path algorithm_name output_prefix
w source_image texture f :
resizes_to_grid cv ->
files w !! source_image_path = Some source_image ->
files w !! texture_path = Some texture ->
get_algorithm_function algorithm_name = Some f ->
exists grid,
  let pal := palette_of texture in
  let stream := py_join "," (grid_tokens grid pal f 100 66) in
  let preview := cv_flip0 (painted pal (map clamp_cell (grid_cells grid pal f 100 66))) in
  let output_path :=
    os_path_join "previews"
      (if String.eqb algorithm_name "rgb" then output_prefix +:+ ".png"
       else output_prefix +:+ "_" +:+ algorithm_name +:+ ".png") in
  fst (serialize_image_to_uv source_image texture f w) = inr stream
  /\ process_image_with_algorithm source_image_path texture_path algorithm_name
       output_prefix w
     = (inr (hex_serialize stream),
        mkWorld (<[output_path := preview]>
                   (<["resized_texture.png" := enlarge_palette pal]> (files w)))
                (stdout w ++ ["Using algorithm: " +:+ algorithm_name]
                   ++ ["Preview saved: " +:+ output_path])%list).
Proof.
intros Hr Hsrc Htex Hf.
unfold process_image_with_algorithm. unfold bind at 1 2. unfold cv_imread.
rewrite Hsrc, Htex, Hf. unfold bind at 1, print at 1.
set (w0 := mkWorld (files w) (stdout w ++ ["Using algorithm: " +:+ algorithm_name])%list).
set (src' := if negb (snd (shape source_image) =? 100)%nat
                || negb (fst (shape source_image) =? 66)%nat
             then cv_resize source_image 100 66 else source_image).
assert (Hshape : shape src' = (66%nat, 100%nat)).
{ unfold src'. destruct (shape source_image) as [h w1] eqn:E. simpl.
  destruct (Nat.eqb_spec w1 100) as [->|]; [|apply Hr].
  destruct (Nat.eqb_spec h 66) as [->|]; [exact E|apply Hr]. }
set (stream := py_join "," (grid_tokens src' (palette_of texture) f 100 66)).
assert (Henc : forall w', serialize_image_to_uv source_image texture f w'
          = (inr stream,
             mkWorld (<["resized_texture.png" := enlarge_palette (palette_of texture)]> (files w'))
                     (stdout w'))).
{ intros w'. rewrite serialize_image_to_uv_closed. cbv zeta. fold src'.
  rewrite Hshape. reflexivity. }
exists src'. cbv zeta. fold stream.
split; [rewrite Henc; reflexivity|].
unfold bind at 1. rewrite Henc.
unfold bind at 1. rewrite create_uv_preview_image_closed.
unfold stream at 1. fold (palette_of texture). rewrite decode_encoded.
unfold ret. cbv zeta.
destruct (String.eqb algorithm_name "rgb"); simpl files; simpl stdout;
  rewrite <- app_assoc; reflexivity.
Qed.


(** X20.  The text it returns for the registry has 65999 items, one per
  character of the stream, and each is the code of a digit, a point, a
  colon or a comma. *)
Theorem process_image_hex_items source_image_path texture_path algorithm_name output_prefix
w source_image texture f :
resizes_to_grid cv ->
files w !! source_image_path = Some source_image ->
files w !! texture_path = Some texture ->
get_algorithm_function algorithm_name = Some f ->
exists hex_serialized_data,
  fst (process_image_with_algorithm source_image_path texture_path algorithm_name
         output_prefix w) = inr hex_serialized_data
  /\ length (py_split "," hex_serialized_data) = 65999%nat
  /\ forall item, In item (py_split "," hex_serialized_data) ->
       In item ["0x30"; "0x31"; "0x32"; "0x33"; "0x34"; "0x35"; "0x36"; "0x37"; "0x38";
                "0x39"; "0x2E"; "0x3A"; "0x2C"].
Proof.
intros Hr Hsrc Htex Hf.
destruct (process_image_closed source_image_path texture_path algorithm_name output_prefix
            w source_image texture f Hr Hsrc Htex Hf) as (grid & _ & Hrun).
cbv zeta in Hrun. eexists. split; [rewrite Hrun; reflexivity|].
set (stream := py_join "," (grid_tokens grid (palette_of texture) f 100 66)).
assert (Hne : stream <> "").
{ intros H. apply (f_equal String.length) in H. unfold stream in H.
  rewrite grid_stream_length in H. discriminate H. }
rewrite (hex_split stream Hne). split.
- rewrite length_map, length_list_ascii. apply grid_stream_length.
- intros item Hin. apply in_map_iff in Hin as (a & <- & Ha).
  apply stream_char_item.
  assert (Hall : forallb stream_char (list_ascii_of_string stream) = true).
  { apply join_chars. rewrite grid_tokens_cells. apply Forall_map, Forall_forall.
    intros b _. apply uv_token_chars. }
  rewrite forallb_forall in Hall. apply Hall, Ha.
Qed.

End Paths.

(** ** Entries the decoder accepts *)

Lemma py_int_finite x : (exists n, py_int x = inr n) <-> ffinite x = true.
Proof.
  unfold py_int, ffinite. destruct (Prim2SF x); simpl; split;
    try discriminate; eauto; intros [n H]; discriminate H.
Qed.

(** X21.  The decoder computes a cell from an entry exactly when the entry has
    two colon-separated fields that [float] reads and neither [x * 7] nor
    [(1.0 - y) * 6] is an infinity or a NaN. *)
Theorem entry_cell_succeeds_iff e :
  (exists c, entry_cell e = inr c) <->
  exists x y rest fx fy,
    py_split ":" e = x :: y :: rest /\ py_float x = Some fx /\ py_float y = Some fy
    /\ ffinite (fx * 7) = true /\ ffinite ((1 - fy) * 6) = true.
Proof.
  unfold entry_cell. cbv zeta.
  destruct (py_split ":" e) as [|x [|y rest]] eqn:E.
  - split; [intros [c H]; discriminate H|].
    intros (x & y & rest & fx & fy & H & _); discriminate H.
  - change ([x] !! 0%nat) with (Some x). change ([x] !! 1%nat) with (@None string).
    split.
    + intros [c H]. destruct (py_float x); discriminate H.
    + intros (x' & y & rest & fx & fy & H & _); discriminate H.
  - change ((x :: y :: rest) !! 0%nat) with (Some x).
    change ((x :: y :: rest) !! 1%nat) with (Some y). cbv beta iota.
    split.
    + intros [c H].
      destruct (py_float x) as [fx|] eqn:Ex; [|discriminate H].
      destruct (py_float y) as [fy|] eqn:Ey; [|discriminate H].
      cbn [from_option ebind] in H.
      destruct (py_int (fx * 7)) as [|a] eqn:Ea; [discriminate H|].
      destruct (py_int ((1 - fy) * 6)) as [|b] eqn:Eb; [discriminate H|].
      exists x, y, rest, fx, fy.
      split; [reflexivity|]. split; [exact Ex|]. split; [exact Ey|].
      split; apply py_int_finite; eauto.
    + intros (x' & y' & rest' & fx & fy & H & Hx & Hy & F1 & F2).
      injection H as <- <- <-. rewrite Hx, Hy. cbn [from_option ebind].
      apply py_int_finite in F1 as [a ->]. apply py_int_finite in F2 as [b ->].
      eexists. reflexivity.
Qed.

(** X22.  An entry without a colon always raises: [ValueError] when it is not a
    float, [IndexError] when it is. *)
Theorem entry_without_colon e :
  has_char ":" e = false ->
  entry_cell e = match py_float e with Some _ => inl IndexError | None => inl ValueError end.
Proof. apply entry_no_colon. Qed.

(** ** The grayscale penalty *)

Lemma fold_left_ext_in {A B} (f g : A -> B -> A) (l : list B) (a : A) :
  (forall a b, In b l -> f a b = g a b) -> fold_left f l a = fold_left g l a.
Proof.
  revert a. induction l as [|x l IH]; intros a H; simpl; [reflexivity|].
  rewrite H by (left; reflexivity). apply IH. intros a' b Hb. apply H. right. exact Hb.
Qed.

Lemma scan_palette_ext d1 d2 tex :
  (forall v u, (v < 6)%nat -> (u < 7)%nat -> d1 (pixel_at tex v u) = d2 (pixel_at tex v u)) ->
  scan_palette d1 tex = scan_palette d2 tex.
Proof.
  intros H. unfold scan_palette. f_equal.
  apply fold_left_ext_in. intros st v Hv. apply in_seq in Hv.
  apply fold_left_ext_in. intros st' u Hu. apply in_seq in Hu.
  unfold scan_cell. cbv zeta. rewrite H by lia. reflexivity.
Qed.

Section Penalty.
Context {cv : OpenCV}.

(** X23.  [simple] is [rgb] for a pixel whose saturation is at most 30, and on a
  palette without a cell of saturation below 30: the penalty is never
  applied. *)
Theorem simple_without_penalty pixel_colour texture_resized :
u8 (chan1 (RGB2HSV (swap_rb pixel_colour))) <= 30
\/ (forall v u, (v < 6)%nat -> (u < 7)%nat ->
      30 <= u8 (chan1 (RGB2HSV (pixel_at texture_resized v u)))) ->
find_closest_colour_simple pixel_colour texture_resized
= find_closest_colour_rgb pixel_colour texture_resized.
Proof.
intros H. unfold find_closest_colour_simple, find_closest_colour_rgb. cbv zeta.
apply scan_palette_ext. intros v u Hv Hu. unfold simple_dist. cbv zeta.
change (chan2 pixel_colour, chan1 pixel_colour, chan0 pixel_colour) with (swap_rb pixel_colour).
destruct H as [H|H].
- replace (30 <? u8 (chan1 (RGB2HSV (swap_rb pixel_colour)))) with false
    by (symmetry; apply Z.ltb_ge; exact H).
  reflexivity.
- replace (u8 (chan1 (RGB2HSV (pixel_at texture_resized v u))) <? 30) with false
    by (symmetry; apply Z.ltb_ge; apply H; assumption).
  rewrite andb_false_r. reflexivity.
Qed.

(** X24.  Each of the seven distances, computed in binary64, is never negative
  (nor a NaN) and is zero from a colour to itself. *)
Theorem distances_nonnegative (p t : Color) :
hue_in_range cv ->
Forall (fun D : Color -> Color -> float => fnonneg (D p t) = true /\ D p p = 0%float)
  [rgb_dist; perceptual_dist; hsv_dist; lab_dist; weighted_dist; simple_dist;
   perceptual_hsv_dist].
Proof.
intros Hue.
assert (G : forall D, good_metric D -> fnonneg (D p t) = true /\ D p p = 0%float).
{ intros D (Hn & Hz & _). split; [apply Hn|apply Hz]. }
repeat (apply Forall_cons_2 || apply Forall_nil_2); apply G.
- apply rgb_dist_good.
- apply perceptual_dist_good.
- apply hsv_dist_good, Hue.
- apply lab_dist_good.
- apply weighted_dist_good.
- apply simple_dist_good.
- apply perceptual_hsv_dist_good, Hue.
Qed.

End Penalty.


(* ===================================================================== *)
(** * The further properties at concrete inputs                           *)
(* ===================================================================== *)

Lemma example_resizes_to_grid : resizes_to_grid example_cv.
Proof. intros img. unfold cv_resize, example_cv, resize_nearest. destruct (shape img). reflexivity. Qed.

Lemma posix_join_has_separator : join_has_separator posix_path.
Proof.
  intros p. unfold os_path_join, posix_path.
  destruct (String.prefix "/" p) eqn:E; [|reflexivity].
  destruct p as [|a p]; [discriminate E|].
  change (String.prefix "/" (String a p))
    with (if ascii_dec "/" a then String.prefix "" p else false) in E.
  destruct (ascii_dec "/" a) as [<-|]; [reflexivity|discriminate E].
Qed.

Lemma example_world_source : files example_world !! "images/flag.png" = Some example_grid.
Proof. unfold example_world. simpl files. apply lookup_insert_eq. Qed.

Lemma example_world_texture :
  files example_world !! "mage-arena-texture.png" = Some example_texture.
Proof.
  unfold example_world. simpl files. rewrite lookup_insert_ne by discriminate.
  apply lookup_insert_eq.
Qed.

Lemma entry_cell_in_palette_witness : 0 <= 3 <= 6 /\ 0 <= 3 <= 5.
Proof. apply (entry_cell_in_palette "0.50:0.50" 3 3). vm_compute. reflexivity. Defined.

Lemma entry_extra_fields_ignored_witness :
  entry_cell ("0.50" +:+ ":" +:+ "0.40" +:+ ":" +:+ "0.30") = entry_cell ("0.50" +:+ ":" +:+ "0.40").
Proof. apply (entry_extra_fields_ignored "0.50" "0.40" "0.30"); reflexivity. Defined.

Lemma preview_of_encoded_witness :
  exists stream w1 preview w2,
    serialize_image_to_uv (cv := example_cv) example_grid example_texture
        find_closest_colour_rgb empty_world = (inr stream, w1)
    /\ create_uv_preview_image (cv := example_cv) stream example_texture
         "image_preview.png" w1 = (inr preview, w2)
    /\ shape preview = (66%nat, 100%nat)
    /\ forall j i, (j < 66)%nat -> (i < 100)%nat ->
         let c := clamp_cell (find_closest_colour_rgb (pixel_at example_grid j i)
                                (palette_of (cv := example_cv) example_texture)) in
         pixel_at preview j i
         = swap_rb (pixel_at (palette_of (cv := example_cv) example_texture)
                      (Z.to_nat (snd c)) (Z.to_nat (fst c))).
Proof.
  apply (preview_of_encoded (cv := example_cv) example_grid example_texture
           find_closest_colour_rgb "image_preview.png" empty_world).
  exact example_grid_shape.
Defined.

Lemma quantizer_in_palette_witness :
  0 <= fst (find_closest_colour_weighted (cv := example_cv) (x10, x80, xf0) red_palette) <= 6
  /\ 0 <= snd (find_closest_colour_weighted (cv := example_cv) (x10, x80, xf0) red_palette) <= 5.
Proof.
  apply (quantizer_in_palette (cv := example_cv) "weighted"). reflexivity.
Defined.

Lemma quantizer_stable_witness :
  let best := find_closest_colour_perceptual_hsv (cv := example_cv) (x10, x80, xf0)
                example_texture in
  find_closest_colour_perceptual_hsv (cv := example_cv)
    (swap_rb (pixel_at example_texture (Z.to_nat (snd best)) (Z.to_nat (fst best))))
    example_texture = best.
Proof.
  apply (quantizer_stable (cv := example_cv) "perceptual_hsv").
  - exact example_hue_in_range.
  - reflexivity.
Defined.

Lemma encoder_stream_format_witness :
  exists stream w',
    serialize_image_to_uv (cv := example_cv) example_grid example_texture
        (find_closest_colour_lab (cv := example_cv)) empty_world = (inr stream, w')
    /\ String.length stream = 65999%nat
    /\ forallb well_formed_entry (py_split "," stream) = true.
Proof.
  apply (encoder_stream_format (cv := example_cv)). exact example_grid_shape.
Defined.

Lemma encoder_resizes_witness :
  fst (serialize_image_to_uv (cv := example_cv) example_texture example_texture
         find_closest_colour_rgb empty_world)
    = fst (serialize_image_to_uv (cv := example_cv)
             (cv_resize (OpenCV := example_cv) example_texture 100 66) example_texture
             find_closest_colour_rgb empty_world)
  /\ exists stream,
       fst (serialize_image_to_uv (cv := example_cv) example_texture example_texture
              find_closest_colour_rgb empty_world) = inr stream
       /\ length (py_split "," stream) = 6600%nat.
Proof.
  apply (encoder_resizes (cv := example_cv)).
  - exact example_resizes_to_grid.
  - vm_compute. discriminate.
Defined.

Lemma rgb_dist_euclidean_witness :
  rgb_dist (xff, x80, x40) (x10, x80, x3f) = euclidean_rgb (xff, x80, x40) (x10, x80, x3f).
Proof.
  apply (rgb_dist_euclidean (xff, x80, x40) (x10, x80, x3f)); vm_compute; discriminate.
Defined.

Lemma normalize_image_path_with_separator_witness :
  normalize_image_path (os := posix_path) "flags/red.png" = "flags/red.png".
Proof.
  apply (normalize_image_path_with_separator (os := posix_path) "flags/red.png"). reflexivity.
Defined.

Lemma normalize_image_path_idempotent_witness :
  normalize_image_path (os := posix_path) (normalize_image_path (os := posix_path) "red.png")
  = normalize_image_path (os := posix_path) "red.png".
Proof.
  apply (normalize_image_path_idempotent (os := posix_path) "red.png").
  exact posix_join_has_separator.
Defined.

Lemma process_image_errors_witness :
  process_image_with_algorithm (cv := example_cv) (os := posix_path)
    "images/flag.png" "mage-arena-texture.png" "cmyk" "image_preview" example_world
  = (inl ValueError, example_world).
Proof.
  apply (process_image_errors (cv := example_cv) (os := posix_path)).
  right. right. reflexivity.
Defined.


Lemma process_image_hex_items_witness :
  exists hex_serialized_data,
    fst (process_image_with_algorithm (cv := example_cv) (os := posix_path)
           "images/flag.png" "mage-arena-texture.png" "rgb" "image_preview" example_world)
    = inr hex_serialized_data
    /\ length (py_split "," hex_serialized_data) = 65999%nat
    /\ forall item, In item (py_split "," hex_serialized_data) ->
         In item ["0x30"; "0x31"; "0x32"; "0x33"; "0x34"; "0x35"; "0x36"; "0x37"; "0x38";
                  "0x39"; "0x2E"; "0x3A"; "0x2C"].
Proof.
  apply (process_image_hex_items (cv := example_cv) (os := posix_path)
           "images/flag.png" "mage-arena-texture.png" "rgb" "image_preview"
           example_world example_grid example_texture find_closest_colour_rgb).
  - exact example_resizes_to_grid.
  - exact example_world_source.
  - exact example_world_texture.
  - reflexivity.
Defined.

Lemma hex_serialize_faithful_witness :
  py_split "," (hex_serialize "0.50:0.40")
    = map hex_item (list_ascii_of_string "0.50:0.40")
  /\ map hex_value (py_split "," (hex_serialize "0.50:0.40"))
     = map N_of_ascii (list_ascii_of_string "0.50:0.40")
  /\ forall s', s' <> "" -> hex_serialize "0.50:0.40" = hex_serialize s' -> "0.50:0.40" = s'.
Proof. apply (hex_serialize_faithful "0.50:0.40"). discriminate. Defined.

Lemma entry_without_colon_witness :
  entry_cell "0.50"
  = match py_float "0.50" with Some _ => inl IndexError | None => inl ValueError end.
Proof. apply (entry_without_colon "0.50"). reflexivity. Defined.

Lemma simple_without_penalty_witness :
  find_closest_colour_simple (cv := example_cv) (xf0, x10, x20) example_texture
  = find_closest_colour_rgb (xf0, x10, x20) example_texture.
Proof.
  apply (simple_without_penalty (cv := example_cv) (xf0, x10, x20) example_texture).
  left. vm_compute. discriminate.
Defined.

Lemma distances_nonnegative_witness :
  Forall (fun D : Color -> Color -> float =>
            fnonneg (D (xf0, x10, x20) (x00, xff, x80)) = true
            /\ D (xf0, x10, x20) (xf0, x10, x20) = 0%float)
    [rgb_dist; perceptual_dist (cv := example_cv); hsv_dist (cv := example_cv);
     lab_dist (cv := example_cv); weighted_dist (cv := example_cv);
     simple_dist (cv := example_cv); perceptual_hsv_dist (cv := example_cv)].
Proof.
  apply (distances_nonnegative (cv := example_cv) (xf0, x10, x20) (x00, xff, x80)).
  exact example_hue_in_range.
Defined.

Lemma decoder_single_field_witness :
  create_uv_preview_image (cv := example_cv) "" example_texture "image_preview.png" empty_world
  = (inl (match py_float "" with Some _ => IndexError | None => ValueError end), empty_world).
Proof.
  apply (decoder_single_field (cv := example_cv) "" example_texture "image_preview.png"
           empty_world); reflexivity.
Defined.
